(** * Arithmetic in GF(2^233) over an optimal normal basis

    A shallow embedding of [main.cpp] (class [GF2mElement]) and the
    verification of its documented properties.

    Modelling conventions.
    - [std::vector<bool>] is [list bool]; a read [v[i]] is [nth i v false]
      and a write [v[i] = x] is stdpp's [<[i:=x]> v].  Every index the
      program uses is in range once the vector has [m] entries.
    - [std::string] is [list ascii].
    - Loop counters and vector indices are non-negative [int]s and are
      modelled by [nat]; values on which signed arithmetic is performed
      ([mod_pow_2], [compute_matrix_element]) are [Z], with the C++
      remainder [%] rendered by the truncating [Z.rem].  All these values
      stay far below 2^31 (see [pow2_range]).
    - The static [mod_pow_2_cache] is a [gmap nat Z] threaded through a
      small state monad; a function that reaches [mod_pow_2] lives in
      that monad. *)

From Stdlib Require Import ZArith List Ascii String Lia Bool Permutation.
From stdpp Require Import base list gmap.

Local Open Scope Z_scope.

(** ** Field parameters *)

Definition m : nat := 233.
Definition p : Z := 467.

(** ** The state monad carrying [mod_pow_2_cache] *)

Definition St (A : Type) : Type := gmap nat Z -> A * gmap nat Z.

Definition ret {A} (a : A) : St A := fun c => (a, c).

Definition bind {A B} (x : St A) (f : A -> St B) : St B :=
  fun c => let '(a, c') := x c in f a c'.

Notation "'do' x <- e1 ; e2" := (bind e1 (fun x => e2))
  (at level 10, x name, e1 at level 100, e2 at level 200).

(** ** Field elements *)

Record GF2mElement : Type := Build_GF2mElement { coefficients : list bool }.

(** [GF2mElement(const std::vector<bool>& coeffs)] *)
Definition GF2mElement_of_vector (coeffs : list bool) : GF2mElement :=
  {| coefficients := resize m false coeffs |}.

(** [GF2mElement(const std::string& bitString)] *)
Definition GF2mElement_of_string (bitString : list ascii) : GF2mElement :=
  let pushed :=
    fold_left
      (fun coeffs i => coeffs ++ [Ascii.eqb (nth i bitString "000"%char) "1"%char])
      (rev (seq 0 (length bitString))) [] in
  {| coefficients := resize m false pushed |}.

(** [operator+] *)
Definition operator_plus (a other : GF2mElement) : GF2mElement :=
  let result_coeffs :=
    fold_left
      (fun rc i =>
         <[i := xorb (nth i (coefficients a) false)
                     (nth i (coefficients other) false)]> rc)
      (seq 0 m) (replicate m false) in
  GF2mElement_of_vector result_coeffs.

(** [squareONB] *)
Definition squareONB (a : GF2mElement) : GF2mElement :=
  let squared_coeffs := replicate m false in
  let squared_coeffs :=
    <[(m - 1)%nat := nth 0 (coefficients a) false]> squared_coeffs in
  let squared_coeffs :=
    fold_left
      (fun sc i => <[i := nth (i + 1) (coefficients a) false]> sc)
      (seq 0 (m - 1)) squared_coeffs in
  GF2mElement_of_vector squared_coeffs.

(** [trace] *)
Definition trace (a : GF2mElement) : bool :=
  fold_left (fun trace_value coeff => xorb trace_value coeff)
    (coefficients a) false.

(** [operator<<]: the characters written to the stream. *)
Definition operator_out (element : GF2mElement) : list ascii :=
  fold_left
    (fun os i =>
       os ++ [if nth i (coefficients element) false then "1"%char else "0"%char])
    (rev (seq 0 m)) [].

(** [transposeToVector] *)
Definition transposeToVector (a : GF2mElement) : list bool :=
  fold_left
    (fun tv i => <[i := nth (m - 1 - i) (coefficients a) false]> tv)
    (seq 0 m) (replicate m false).

(** [multiplyWithMatrix] *)
Definition multiplyWithMatrix (a : GF2mElement)
    (one_positions : list (nat * nat)) : list bool :=
  fold_left
    (fun result '(i, j) =>
       let temp := xorb (nth i result false)
                        (nth (m - 1 - j) (coefficients a) false) in
       <[i := temp]> result)
    one_positions (replicate m false).

(** [multiplyWithTransposed] *)
Definition multiplyWithTransposed (a : GF2mElement) (other : list bool) : bool :=
  fold_left
    (fun result i =>
       if nth i other false
       then xorb result (nth i (coefficients a) false)
       else result)
    (seq 0 m) false.

(** [cyclicLeftShift]; [positions] is only ever a non-negative count. *)
Definition cyclicLeftShift (a : GF2mElement) (positions : nat) : GF2mElement :=
  let size := length (coefficients a) in
  let shifted_coeffs :=
    fold_left
      (fun sc i =>
         let new_index := ((i + positions) mod size)%nat in
         <[new_index := nth i (coefficients a) false]> sc)
      (seq 0 size) (replicate size false) in
  GF2mElement_of_vector shifted_coeffs.

(** ** The multiplication matrix *)

(** [static int mod_pow_2(int exponent, int mod)] *)
Definition mod_pow_2 (exponent : nat) (modulus : Z) : St Z :=
  fun cache =>
    match cache !! exponent with
    | Some v => (v, cache)
    | None =>
        let result :=
          fold_left (fun result _ => Z.rem (result * 2) modulus)
            (seq 0 exponent) 1 in
        (result, <[exponent := result]> cache)
    end.

(** The four entries of [results] and the test applied to them. *)
Definition results_of (pow_i pow_j modulus : Z) : list Z :=
  [ Z.rem (pow_i + pow_j) modulus;
    Z.rem (pow_i - pow_j + modulus) modulus;
    Z.rem (- pow_i + pow_j + modulus) modulus;
    Z.rem (- pow_i - pow_j + modulus) modulus ].

Definition entry_of (pow_i pow_j : Z) : Z :=
  if existsb (fun result => (result =? 1) || (result =? -466))
       (results_of pow_i pow_j p)
  then 1 else 0.

(** [static int compute_matrix_element(int i, int j)] *)
Definition compute_matrix_element (i j : nat) : St Z :=
  let modulus := p in
  do pow_i <- mod_pow_2 i modulus;
  do pow_j <- mod_pow_2 j modulus;
  ret (entry_of pow_i pow_j).

(** The inner [for (int j = 0; j < m; ++j)] loop of
    [createMultiplicativeMatrix], with its [break]. *)
Fixpoint scan_row (i : nat) (js : list nat) (prevVal : nat)
    (one_positions : list (nat * nat)) : St (list (nat * nat)) :=
  match js with
  | [] => ret one_positions
  | j :: js' =>
      do e <- compute_matrix_element i j;
      if e =? 1 then
        if Nat.eqb (S prevVal) 2 then ret (one_positions ++ [(i, j)])
        else scan_row i js' (S prevVal) (one_positions ++ [(i, j)])
      else scan_row i js' prevVal one_positions
  end.

(** The outer [for (int i = 0; i < m; ++i)] loop; [rows] and [cols] are
    the ranges of [i] and of [j], and [prevVal] restarts at 0 in each row. *)
Fixpoint scan_rows (rows cols : list nat) (one_positions : list (nat * nat))
    : St (list (nat * nat)) :=
  match rows with
  | [] => ret one_positions
  | i :: rows' =>
      do one_positions <- scan_row i cols 0 one_positions;
      scan_rows rows' cols one_positions
  end.

(** [static std::vector<std::pair<int,int>> createMultiplicativeMatrix()] *)
Definition createMultiplicativeMatrix : St (list (nat * nat)) :=
  scan_rows (seq 0 m) (seq 0 m) [].

(** ** Multiplication, exponentiation, inversion *)

Definition bit_char (b : bool) : ascii := if b then "1"%char else "0"%char.

(** One round of the loop of [multiplyAndShift]: the output bit. *)
Definition round_bit (matrixA : list (nat * nat)) (a b : GF2mElement) : bool :=
  let productWithA := multiplyWithMatrix a matrixA in
  let transposedB := transposeToVector b in
  multiplyWithTransposed (GF2mElement_of_vector productWithA) transposedB.

Fixpoint shift_rounds (matrixA : list (nat * nat)) (steps : nat)
    (a b : GF2mElement) (resultVector : list ascii) : list ascii :=
  match steps with
  | O => resultVector
  | S steps' =>
      let multiplicationResult := round_bit matrixA a b in
      shift_rounds matrixA steps' (cyclicLeftShift a 1) (cyclicLeftShift b 1)
        (resultVector ++ [bit_char multiplicationResult])
  end.

(** [multiplyAndShift] *)
Definition multiplyAndShift (a b : GF2mElement) (steps : nat) : St (list ascii) :=
  do matrixA <- createMultiplicativeMatrix;
  ret (shift_rounds matrixA steps a b []).

(** The body of [operator*] after the call of [multiplyAndShift]. *)
Definition read_back (result : list ascii) : GF2mElement :=
  let result_vector :=
    fold_left (fun rv ch => rv ++ [Ascii.eqb ch "1"%char]) (rev result) [] in
  GF2mElement_of_vector result_vector.

(** [operator*] *)
Definition operator_star (a other : GF2mElement) : St GF2mElement :=
  do result <- multiplyAndShift a other 233;
  ret (read_back result).

Definition identity : GF2mElement := GF2mElement_of_vector (replicate m true).
Definition zero : GF2mElement := GF2mElement_of_vector [].

Fixpoint power_loop (base : GF2mElement) (bits : list ascii)
    (result : GF2mElement) : St GF2mElement :=
  match bits with
  | [] => ret result
  | bit :: bits' =>
      let result := squareONB result in
      if Ascii.eqb bit "1"%char then
        do result <- operator_star result base; power_loop base bits' result
      else power_loop base bits' result
  end.

(** [power] *)
Definition power (a : GF2mElement) (exponent : list ascii) : St GF2mElement :=
  let neutral_coeffs := replicate m true in
  let result := GF2mElement_of_vector neutral_coeffs in
  let base := a in
  match exponent with
  | [] => ret result
  | first :: rest =>
      if Ascii.eqb first "1"%char then
        do result <- operator_star result base; power_loop base rest result
      else power_loop base rest result
  end.

Definition m_binary : list ascii := list_ascii_of_string "11101000".

(** The body of the [for (int i = 1; i <= 7; ++i)] loop of [inverse]. *)
Definition inverse_step (this : GF2mElement) (st : GF2mElement * nat) (i : nat)
    : St (GF2mElement * nat) :=
  let '(beta, k) := st in
  let original_beta := beta in
  let beta := fold_left (fun beta _ => squareONB beta) (seq 0 k) beta in
  do beta <- operator_star beta original_beta;
  let k := (k * 2)%nat in
  if Ascii.eqb (nth i m_binary "000"%char) "1"%char then
    let squared_beta := squareONB beta in
    do beta <- operator_star squared_beta this;
    ret (beta, S k)
  else ret (beta, k).

Fixpoint inverse_loop (this : GF2mElement) (idxs : list nat)
    (st : GF2mElement * nat) : St (GF2mElement * nat) :=
  match idxs with
  | [] => ret st
  | i :: idxs' => do st <- inverse_step this st i; inverse_loop this idxs' st
  end.

(** [inverse] *)
Definition inverse (this : GF2mElement) : St GF2mElement :=
  do st <- inverse_loop this (seq 1 7) (this, 1%nat);
  ret (squareONB (fst st)).

(** * Part I: the cache has no semantic effect *)

(** ** Cache-free readings *)

Definition pow2 (exponent : nat) : Z :=
  fold_left (fun result _ => Z.rem (result * 2) p) (seq 0 exponent) 1.

Definition matrix_entry (i j : nat) : Z := entry_of (pow2 i) (pow2 j).

Fixpoint row_of (i : nat) (js : list nat) (prevVal : nat)
    (one_positions : list (nat * nat)) : list (nat * nat) :=
  match js with
  | [] => one_positions
  | j :: js' =>
      if matrix_entry i j =? 1 then
        if Nat.eqb (S prevVal) 2 then one_positions ++ [(i, j)]
        else row_of i js' (S prevVal) (one_positions ++ [(i, j)])
      else row_of i js' prevVal one_positions
  end.

Fixpoint rows_of (rows cols : list nat) (one_positions : list (nat * nat))
    : list (nat * nat) :=
  match rows with
  | [] => one_positions
  | i :: rows' => rows_of rows' cols (row_of i cols 0 one_positions)
  end.

(** The value [createMultiplicativeMatrix] returns. *)
Definition matrix : list (nat * nat) := rows_of (seq 0 m) (seq 0 m) [].

(** The value [operator*] returns. *)
Definition mul (a b : GF2mElement) : GF2mElement :=
  read_back (shift_rounds matrix 233 a b []).

Definition inv_step (this : GF2mElement) (st : GF2mElement * nat) (i : nat)
    : GF2mElement * nat :=
  let '(beta, k) := st in
  let shifted := fold_left (fun beta _ => squareONB beta) (seq 0 k) beta in
  let beta' := mul shifted beta in
  if Ascii.eqb (nth i m_binary "000"%char) "1"%char
  then (mul (squareONB beta') this, S (k * 2))
  else (beta', (k * 2)%nat).

(** The value [inverse] returns. *)
Definition inv (this : GF2mElement) : GF2mElement :=
  squareONB (fst (fold_left (inv_step this) (seq 1 7) (this, 1%nat))).

Fixpoint pow_loop (base : GF2mElement) (bits : list ascii)
    (result : GF2mElement) : GF2mElement :=
  match bits with
  | [] => result
  | bit :: bits' =>
      if Ascii.eqb bit "1"%char
      then pow_loop base bits' (mul (squareONB result) base)
      else pow_loop base bits' (squareONB result)
  end.

(** The value [power] returns. *)
Definition pow (a : GF2mElement) (exponent : list ascii) : GF2mElement :=
  match exponent with
  | [] => identity
  | first :: rest =>
      if Ascii.eqb first "1"%char
      then pow_loop a rest (mul identity a)
      else pow_loop a rest identity
  end.

(** ** Cache invariant and the [runs] judgement *)

(** Every cached entry is the value the loop of [mod_pow_2] would compute
    for modulus [p] (the only modulus the program ever passes). *)
Definition cache_ok (cache : gmap nat Z) : Prop :=
  forall e v, cache !! e = Some v -> v = pow2 e.

(** [runs x v]: from any consistent cache, [x] returns [v] and leaves a
    consistent cache. *)
Definition runs {A} (x : St A) (v : A) : Prop :=
  forall c, cache_ok c -> exists c', x c = (v, c') /\ cache_ok c'.

Lemma cache_ok_empty : cache_ok ∅.
Proof. intros e v H. rewrite lookup_empty in H. discriminate. Qed.

Lemma runs_ret {A} (a : A) : runs (ret a) a.
Proof. intros c Hc. exists c. split; [reflexivity | assumption]. Qed.

Lemma runs_bind {A B} (x : St A) (f : A -> St B) a b :
  runs x a -> runs (f a) b -> runs (bind x f) b.
Proof.
  intros Hx Hf c Hc. destruct (Hx c Hc) as (c1 & E1 & Hc1).
  destruct (Hf c1 Hc1) as (c2 & E2 & Hc2).
  exists c2. unfold bind. rewrite E1. split; assumption.
Qed.

Lemma runs_fst {A} (x : St A) v c : runs x v -> cache_ok c -> fst (x c) = v.
Proof. intros H Hc. destruct (H c Hc) as (c' & E & _). now rewrite E. Qed.

Lemma mod_pow_2_runs e : runs (mod_pow_2 e p) (pow2 e).
Proof.
  intros c Hc. unfold mod_pow_2. destruct (c !! e) as [v|] eqn:E.
  - exists c. split; [| assumption]. f_equal. now apply Hc.
  - eexists. split; [reflexivity |].
    intros e' v'. destruct (decide (e = e')) as [<- | Hne].
    + rewrite lookup_insert_eq. intros [= <-]. reflexivity.
    + rewrite lookup_insert_ne by assumption. apply Hc.
Qed.

Lemma compute_matrix_element_runs i j :
  runs (compute_matrix_element i j) (matrix_entry i j).
Proof.
  unfold compute_matrix_element.
  eapply runs_bind; [apply mod_pow_2_runs |].
  eapply runs_bind; [apply mod_pow_2_runs |].
  apply runs_ret.
Qed.

Lemma scan_row_runs i js : forall prevVal ops,
  runs (scan_row i js prevVal ops) (row_of i js prevVal ops).
Proof.
  induction js as [| j js IH]; intros prevVal ops; cbn [scan_row row_of].
  - apply runs_ret.
  - eapply runs_bind; [apply compute_matrix_element_runs |].
    destruct (matrix_entry i j =? 1).
    + destruct (Nat.eqb (S prevVal) 2); [apply runs_ret | apply IH].
    + apply IH.
Qed.

Lemma scan_rows_runs cols rows : forall ops,
  runs (scan_rows rows cols ops) (rows_of rows cols ops).
Proof.
  induction rows as [| i rows IH]; intros ops; cbn [scan_rows rows_of].
  - apply runs_ret.
  - eapply runs_bind; [apply scan_row_runs | apply IH].
Qed.

Lemma createMultiplicativeMatrix_runs : runs createMultiplicativeMatrix matrix.
Proof. exact (scan_rows_runs (seq 0 m) (seq 0 m) []). Qed.

Lemma operator_star_runs a b : runs (operator_star a b) (mul a b).
Proof.
  unfold operator_star, multiplyAndShift.
  eapply runs_bind.
  - eapply runs_bind; [apply createMultiplicativeMatrix_runs | apply runs_ret].
  - apply runs_ret.
Qed.

Lemma inverse_step_runs this st i :
  runs (inverse_step this st i) (inv_step this st i).
Proof.
  destruct st as [beta k]. unfold inverse_step, inv_step.
  eapply runs_bind; [apply operator_star_runs |].
  destruct (Ascii.eqb _ _).
  - eapply runs_bind; [apply operator_star_runs | apply runs_ret].
  - apply runs_ret.
Qed.

Lemma inverse_loop_runs this idxs : forall st,
  runs (inverse_loop this idxs st) (fold_left (inv_step this) idxs st).
Proof.
  induction idxs as [| i idxs IH]; intros st; cbn [inverse_loop fold_left].
  - apply runs_ret.
  - eapply runs_bind; [apply inverse_step_runs | apply IH].
Qed.

Lemma inverse_runs this : runs (inverse this) (inv this).
Proof.
  unfold inverse, inv.
  eapply runs_bind; [apply inverse_loop_runs | apply runs_ret].
Qed.

Lemma power_loop_runs base bits : forall result,
  runs (power_loop base bits result) (pow_loop base bits result).
Proof.
  induction bits as [| bit bits IH]; intros result; cbn [power_loop pow_loop].
  - apply runs_ret.
  - destruct (Ascii.eqb bit "1").
    + eapply runs_bind; [apply operator_star_runs | apply IH].
    + apply IH.
Qed.

Lemma power_runs a exponent : runs (power a exponent) (pow a exponent).
Proof.
  unfold power, pow. destruct exponent as [| first rest]; [apply runs_ret |].
  destruct (Ascii.eqb first "1").
  - eapply runs_bind; [apply operator_star_runs | apply power_loop_runs].
  - apply power_loop_runs.
Qed.

(** * Part II: what the vector primitives compute *)

Local Open Scope nat_scope.

Lemma m_val : m = 233.
Proof. reflexivity. Qed.

Lemma m_pos : 0 < m.
Proof. unfold m. lia. Qed.

(** Well-formed elements: exactly [m] coefficients.  Both constructors
    end with [resize(m, false)], so every value the program builds is
    well formed. *)
Definition wf (a : GF2mElement) : Prop := length (coefficients a) = m.

(** Coefficient [n] of [a]. *)
Definition coef (a : GF2mElement) (n : nat) : bool := nth n (coefficients a) false.

Lemma wf_of_vector l : wf (GF2mElement_of_vector l).
Proof. unfold wf. cbn [GF2mElement_of_vector coefficients]. apply length_resize. Qed.

Lemma of_vector_full l :
  length l = m -> coefficients (GF2mElement_of_vector l) = l.
Proof.
  intros H. cbn [GF2mElement_of_vector coefficients].
  apply resize_all_alt. now symmetry.
Qed.

Lemma element_eq a b : coefficients a = coefficients b -> a = b.
Proof. destruct a, b. cbn. now intros ->. Qed.

(** Two well-formed elements with the same [m] coefficients are equal. *)
Lemma wf_ext a b :
  wf a -> wf b -> (forall n, n < m -> coef a n = coef b n) -> a = b.
Proof.
  intros Ha Hb H. apply element_eq.
  apply (nth_ext _ _ false false); [congruence |].
  intros n Hn. apply H. unfold wf in Ha. lia.
Qed.

(** ** Reads after writes *)

Lemma nth_insert_eq {A} (l : list A) i x d :
  i < length l -> nth i (<[i:=x]> l) d = x.
Proof. intros H. rewrite nth_lookup, list_lookup_insert_eq; auto. Qed.

Lemma nth_insert_ne {A} (l : list A) i j x d :
  i <> j -> nth j (<[i:=x]> l) d = nth j l d.
Proof. intros H. rewrite !nth_lookup, list_lookup_insert_ne; auto. Qed.

Lemma nth_replicate {A} n (x d : A) i : i < n -> nth i (replicate n x) d = x.
Proof. intros H. rewrite nth_lookup, lookup_replicate_2; auto. Qed.

Lemma nth_replicate_same {A} n (d : A) i : nth i (replicate n d) d = d.
Proof.
  destruct (Nat.lt_ge_cases i n) as [H | H].
  - now apply nth_replicate.
  - apply nth_overflow. now rewrite length_replicate.
Qed.

(** A loop that writes slot [g i] for each [i] of [l] keeps the length. *)
Lemma length_fold_insert {A} (g : nat -> nat) (f : nat -> A) l : forall init,
  length (fold_left (fun v i => <[g i := f i]> v) l init) = length init.
Proof.
  induction l as [| x l IH]; intros init; cbn [fold_left]; [reflexivity |].
  rewrite IH. apply length_insert.
Qed.

(** [for (i = 0; i < k; ++i) v[i] = f(i);] *)
Lemma nth_fill {A} (f : nat -> A) (d : A) k : forall init n,
  k <= length init ->
  nth n (fold_left (fun v i => <[i := f i]> v) (seq 0 k) init) d
  = if n <? k then f n else nth n init d.
Proof.
  induction k as [| k IH]; intros init n Hk.
  - reflexivity.
  - rewrite seq_S, fold_left_app. cbn [fold_left Nat.add].
    destruct (Nat.eq_dec n k) as [-> | Hne].
    + rewrite nth_insert_eq.
      * now rewrite (proj2 (Nat.ltb_lt k (S k))) by lia.
      * rewrite (length_fold_insert (fun i => i)). lia.
    + rewrite nth_insert_ne by congruence. rewrite IH by lia.
      destruct (Nat.ltb_spec n k), (Nat.ltb_spec n (S k)); try lia; reflexivity.
Qed.

(** A loop writing each slot [g i] once: slot [g i] ends up holding [f i]. *)
Lemma nth_scatter {A} (g : nat -> nat) (f : nat -> A) (d : A) l :
  forall init i,
  (forall x y, In x l -> In y l -> g x = g y -> x = y) ->
  In i l -> g i < length init ->
  nth (g i) (fold_left (fun v i => <[g i := f i]> v) l init) d = f i.
Proof.
  induction l as [| x l IH] using rev_ind; intros init i Hinj Hin Hlt.
  - destruct Hin.
  - rewrite fold_left_app. cbn [fold_left].
    destruct (Nat.eq_dec i x) as [-> | Hne].
    + apply nth_insert_eq. now rewrite length_fold_insert.
    + assert (Hi : In i l).
      { apply in_app_or in Hin. destruct Hin as [H | [H | []]]; congruence. }
      rewrite nth_insert_ne.
      * apply IH; auto. intros; apply Hinj; auto using in_or_app.
      * intros E. apply Hne. symmetry. apply Hinj; auto using in_or_app.
        apply in_or_app. right. now left.
Qed.

(** ** Index arithmetic modulo [m] *)

Lemma mod_once s a : 0 < s -> a < 2 * s ->
  a mod s = if a <? s then a else a - s.
Proof.
  intros Hs Ha. destruct (Nat.ltb_spec a s) as [H | H].
  - now apply Nat.mod_small.
  - replace a with ((a - s) + 1 * s) at 1 by lia.
    rewrite Nat.Div0.mod_add. apply Nat.mod_small. lia.
Qed.

Lemma mod_shift s a b : 0 < s -> (a mod s + b) mod s = (a + b) mod s.
Proof. intros Hs. now rewrite Nat.Div0.add_mod_idemp_l. Qed.

(** ** The primitives, coefficient by coefficient *)

Lemma wf_operator_plus a b : wf (operator_plus a b).
Proof. apply wf_of_vector. Qed.

Lemma coef_operator_plus a b n :
  coef (operator_plus a b) n = if n <? m then xorb (coef a n) (coef b n) else false.
Proof.
  unfold coef, operator_plus. rewrite of_vector_full.
  - rewrite nth_fill by (rewrite length_replicate; lia).
    destruct (n <? m); [reflexivity | apply nth_replicate_same].
  - rewrite (length_fold_insert (fun i => i)). apply length_replicate.
Qed.

Lemma wf_squareONB a : wf (squareONB a).
Proof. apply wf_of_vector. Qed.

Lemma coef_squareONB a n : wf a -> n < m ->
  coef (squareONB a) n = coef a ((n + 1) mod m).
Proof.
  intros Ha Hn. unfold coef, squareONB. rewrite of_vector_full.
  - rewrite nth_fill by (rewrite length_insert, length_replicate; lia).
    destruct (Nat.ltb_spec n (m - 1)) as [H | H].
    + rewrite Nat.mod_small by lia. reflexivity.
    + assert (n = m - 1) as -> by lia.
      rewrite nth_insert_eq by (rewrite length_replicate; lia).
      replace (m - 1 + 1) with m by (pose proof m_pos; lia).
      now rewrite Nat.Div0.mod_same.
  - rewrite (length_fold_insert (fun i => i)), length_insert.
    apply length_replicate.
Qed.

Lemma wf_cyclicLeftShift a k : wf (cyclicLeftShift a k).
Proof. apply wf_of_vector. Qed.

Lemma coef_cyclicLeftShift a k n : wf a -> n < m ->
  coef (cyclicLeftShift a k) n = coef a ((n + (m - k mod m)) mod m).
Proof.
  intros Ha Hn. pose proof m_pos as Hm. unfold wf in Ha.
  unfold coef, cyclicLeftShift. rewrite Ha.
  rewrite of_vector_full
    by (rewrite (length_fold_insert (fun i => (i + k) mod m)); apply length_replicate).
  pose proof (Nat.mod_upper_bound k m ltac:(lia)) as Hk.
  set (i := (n + (m - k mod m)) mod m).
  assert (Hi : i < m) by (apply Nat.mod_upper_bound; lia).
  assert (Hg : forall x, x < m ->
            (x + k) mod m = if x + k mod m <? m then x + k mod m else x + k mod m - m).
  { intros x Hx. rewrite <- Nat.Div0.add_mod_idemp_r. apply mod_once; lia. }
  assert (En : (i + k) mod m = n).
  { rewrite Hg by assumption. unfold i. rewrite mod_once by lia.
    repeat match goal with
           | |- context [?x <? ?y] => destruct (Nat.ltb_spec x y)
           end; lia. }
  rewrite <- En at 1.
  apply (nth_scatter (fun i => (i + k) mod m) (fun i => nth i (coefficients a) false)).
  - intros x y Hx Hy E. apply in_seq in Hx, Hy.
    rewrite !Hg in E by lia.
    destruct (Nat.ltb_spec (x + k mod m) m), (Nat.ltb_spec (y + k mod m) m); lia.
  - apply in_seq. lia.
  - rewrite length_replicate. apply Nat.mod_upper_bound. lia.
Qed.

Lemma nth_transposeToVector a n :
  nth n (transposeToVector a) false = if n <? m then coef a (m - 1 - n) else false.
Proof.
  unfold transposeToVector.
  rewrite nth_fill by (rewrite length_replicate; lia).
  destruct (n <? m); [reflexivity | apply nth_replicate_same].
Qed.

(** ** Sums over GF(2) *)

Definition xsum {A} (f : A -> bool) (l : list A) : bool :=
  fold_right (fun x acc => xorb (f x) acc) false l.

Lemma xsum_cons {A} (f : A -> bool) x l :
  xsum f (x :: l) = xorb (f x) (xsum f l).
Proof. reflexivity. Qed.

Lemma xsum_app {A} (f : A -> bool) l1 l2 :
  xsum f (l1 ++ l2) = xorb (xsum f l1) (xsum f l2).
Proof.
  induction l1 as [| x l1 IH]; cbn [app].
  - change (xsum f []) with false. now rewrite xorb_false_l.
  - rewrite !xsum_cons, IH. now rewrite xorb_assoc.
Qed.

Lemma xsum_ext_in {A} (f g : A -> bool) l :
  (forall x, In x l -> f x = g x) -> xsum f l = xsum g l.
Proof.
  induction l as [| x l IH]; intros H; [reflexivity |].
  rewrite !xsum_cons, H, IH; auto using in_eq, in_cons.
Qed.

Lemma xsum_xorb {A} (f g : A -> bool) l :
  xsum (fun x => xorb (f x) (g x)) l = xorb (xsum f l) (xsum g l).
Proof.
  induction l as [| x l IH]; [reflexivity |].
  rewrite !xsum_cons, IH.
  destruct (f x), (g x), (xsum f l), (xsum g l); reflexivity.
Qed.

Lemma xsum_false {A} (l : list A) : xsum (fun _ => false) l = false.
Proof. induction l as [| x l IH]; [reflexivity |]. now rewrite xsum_cons, IH. Qed.

Lemma xsum_map {A B} (h : A -> B) (f : B -> bool) l :
  xsum f (map h l) = xsum (fun x => f (h x)) l.
Proof.
  induction l as [| x l IH]; [reflexivity |].
  cbn [map]. now rewrite !xsum_cons, IH.
Qed.

(** Summing over [s, s+k) a term that is present only at index [n]. *)
Lemma xsum_single (f : nat -> bool) n k : forall s,
  xsum (fun x => (x =? n) && f x) (seq s k)
  = if (s <=? n) && (n <? s + k) then f n else false.
Proof.
  induction k as [| k IH]; intros s.
  - cbn [seq xsum fold_right].
    destruct (Nat.leb_spec s n), (Nat.ltb_spec n (s + 0)); try reflexivity; lia.
  - cbn [seq]. rewrite xsum_cons, IH.
    destruct (Nat.eqb_spec s n) as [-> | Hne].
    + destruct (Nat.leb_spec (S n) n); [lia |].
      destruct (Nat.leb_spec n n); [| lia].
      destruct (Nat.ltb_spec n (n + S k)); [| lia].
      cbn. now destruct (f n).
    + destruct (Nat.leb_spec (S s) n), (Nat.leb_spec s n);
        destruct (Nat.ltb_spec n (S s + k)), (Nat.ltb_spec n (s + S k));
        try lia; reflexivity.
Qed.

Lemma xsum_single_m (f : nat -> bool) n : n < m ->
  xsum (fun x => (x =? n) && f x) (seq 0 m) = f n.
Proof.
  intros H. rewrite xsum_single.
  destruct (Nat.leb_spec 0 n); [| lia].
  destruct (Nat.ltb_spec n (0 + m)); [reflexivity | lia].
Qed.

(** ** One round of multiplication *)

Lemma multiplyWithTransposed_xsum a other :
  multiplyWithTransposed a other
  = xsum (fun i => nth i other false && coef a i) (seq 0 m).
Proof.
  unfold multiplyWithTransposed.
  enough (H : forall l r,
    fold_left (fun result i =>
       if nth i other false then xorb result (nth i (coefficients a) false)
       else result) l r
    = xorb r (xsum (fun i => nth i other false && coef a i) l)).
  { rewrite H. reflexivity. }
  induction l as [| i l IH]; intros r; cbn [fold_left].
  - now destruct r.
  - rewrite IH, xsum_cons. unfold coef.
    destruct (nth i other false); cbn [andb].
    + now rewrite xorb_assoc.
    + reflexivity.
Qed.

(** The body of the loop of [multiplyWithMatrix]. *)
Definition mwm_step (a : GF2mElement) (result : list bool) (e : nat * nat)
    : list bool :=
  let '(i, j) := e in
  <[i := xorb (nth i result false) (nth (m - 1 - j) (coefficients a) false)]> result.

Lemma multiplyWithMatrix_fold a M :
  multiplyWithMatrix a M = fold_left (mwm_step a) M (replicate m false).
Proof. reflexivity. Qed.

Lemma length_mwm a M : forall r,
  length (fold_left (mwm_step a) M r) = length r.
Proof.
  induction M as [| [i j] M IH]; intros r; cbn [fold_left]; [reflexivity |].
  rewrite IH. apply length_insert.
Qed.

Lemma mwm_inner a (o : nat -> bool) M : forall r,
  length r = m -> Forall (fun e => fst e < m) M ->
  xsum (fun i => o i && nth i (fold_left (mwm_step a) M r) false) (seq 0 m)
  = xorb (xsum (fun i => o i && nth i r false) (seq 0 m))
         (xsum (fun e => o (fst e) && coef a (m - 1 - snd e)) M).
Proof.
  induction M as [| [i j] M IH]; intros r Hr HM; cbn [fold_left].
  - now rewrite xorb_false_r.
  - inversion HM as [| ? ? Hi HM']; subst. cbn [fst] in Hi.
    rewrite IH by (try assumption; cbn [mwm_step]; now rewrite length_insert).
    rewrite xsum_cons. cbn [fst snd]. rewrite <- xorb_assoc. f_equal.
    rewrite <- (xsum_single_m (fun x => o x && coef a (m - 1 - j)) i Hi).
    rewrite <- xsum_xorb. apply xsum_ext_in. intros x _.
    cbn [mwm_step]. destruct (Nat.eqb_spec x i) as [-> | Hne].
    + rewrite nth_insert_eq by lia. unfold coef.
      now destruct (o i), (nth i r false), (nth (m - 1 - j) (coefficients a) false).
    + rewrite nth_insert_ne by congruence. cbn [andb]. now rewrite xorb_false_r.
Qed.

Lemma round_bit_xsum M a b :
  Forall (fun e => fst e < m) M ->
  round_bit M a b
  = xsum (fun e => coef a (m - 1 - snd e) && coef b (m - 1 - fst e)) M.
Proof.
  intros HM. unfold round_bit.
  rewrite multiplyWithTransposed_xsum, multiplyWithMatrix_fold.
  rewrite (xsum_ext_in _
    (fun i => nth i (transposeToVector b) false
              && nth i (fold_left (mwm_step a) M (replicate m false)) false)).
  2:{ intros i _. unfold coef. rewrite of_vector_full; [reflexivity |].
      rewrite length_mwm. apply length_replicate. }
  rewrite mwm_inner by (auto using length_replicate).
  rewrite (xsum_ext_in _ (fun _ => false)).
  2:{ intros i _. rewrite nth_replicate_same. apply andb_false_r. }
  rewrite xsum_false, xorb_false_l.
  apply xsum_ext_in. intros [i j] Hin. cbn [fst snd].
  rewrite List.Forall_forall in HM. specialize (HM _ Hin). cbn [fst] in HM.
  rewrite nth_transposeToVector.
  destruct (Nat.ltb_spec i m); [apply andb_comm | lia].
Qed.

(** ** The rounds of [multiplyAndShift] and the read-back of [operator*] *)

(** The operands after [k] executions of [a = a.cyclicLeftShift(1)]. *)
Fixpoint shifted (k : nat) (a : GF2mElement) : GF2mElement :=
  match k with
  | O => a
  | S k' => shifted k' (cyclicLeftShift a 1)
  end.

Lemma coef_shifted k : forall a x, wf a -> k <= m -> x < m ->
  coef (shifted k a) x = coef a ((x + (m - k)) mod m).
Proof.
  pose proof m_pos as Hm.
  induction k as [| k IH]; intros a x Ha Hk Hx; cbn [shifted].
  - rewrite Nat.sub_0_r.
    replace (x + m) with (x + 1 * m) by lia.
    rewrite Nat.Div0.mod_add, Nat.mod_small by lia. reflexivity.
  - rewrite IH by (auto using wf_cyclicLeftShift; lia).
    rewrite coef_cyclicLeftShift
      by (try assumption; apply Nat.mod_upper_bound; lia).
    f_equal. rewrite mod_shift by lia.
    assert (E1 : 1 mod m = 1) by (apply Nat.mod_small; unfold m; lia).
    rewrite E1.
    replace (x + (m - k) + (m - 1)) with (x + (m - S k) + 1 * m) by lia.
    apply Nat.Div0.mod_add.
Qed.

Lemma shift_rounds_map M steps : forall a b acc,
  shift_rounds M steps a b acc
  = acc ++ map (fun k => bit_char (round_bit M (shifted k a) (shifted k b)))
             (seq 0 steps).
Proof.
  induction steps as [| steps IH]; intros a b acc; cbn [shift_rounds].
  - cbn [seq map]. now rewrite app_nil_r.
  - rewrite IH. cbn [seq map shifted]. rewrite <- seq_shift, map_map.
    rewrite <- app_assoc. cbn [app shifted]. reflexivity.
Qed.

Lemma push_back_map {A B} (g : A -> B) l : forall acc,
  fold_left (fun rv ch => rv ++ [g ch]) l acc = acc ++ map g l.
Proof.
  induction l as [| x l IH]; intros acc; cbn [fold_left map].
  - now rewrite app_nil_r.
  - rewrite IH, <- app_assoc. reflexivity.
Qed.

Lemma bit_char_is_one b : Ascii.eqb (bit_char b) "1" = b.
Proof. now destruct b. Qed.

Lemma read_back_bits (bits : list bool) : length bits = m ->
  coefficients (read_back (map bit_char bits)) = rev bits.
Proof.
  intros H. unfold read_back. rewrite push_back_map. cbn [app].
  rewrite <- map_rev, map_map.
  rewrite (map_ext _ (fun b => b)) by apply bit_char_is_one.
  rewrite map_id. apply of_vector_full. now rewrite length_rev.
Qed.

(** Matrices whose marked positions are inside the m x m square. *)
Definition in_range (M : list (nat * nat)) : Prop :=
  Forall (fun e => fst e < m /\ snd e < m) M.

Lemma in_range_rows M : in_range M -> Forall (fun e => fst e < m) M.
Proof. intros H. eapply List.Forall_impl; [| exact H]. cbn beta. tauto. Qed.

(** [operator*] run with the matrix [M]. *)
Definition mul_with (M : list (nat * nat)) (a b : GF2mElement) : GF2mElement :=
  read_back (shift_rounds M 233 a b []).

(** The bilinear form computed by [operator*]: coefficient [n] of the
    product sums [a[n - j] & b[n - i]] over the marked [(i, j)], all
    indices modulo [m]. *)
Definition term (a b : GF2mElement) (n : nat) (e : nat * nat) : bool :=
  coef a ((n + (m - snd e)) mod m) && coef b ((n + (m - fst e)) mod m).

Lemma coef_mul_with M a b n :
  in_range M -> wf a -> wf b -> n < m ->
  coef (mul_with M a b) n = xsum (term a b n) M.
Proof.
  intros HM Ha Hb Hn. pose proof m_pos as Hm.
  unfold mul_with, coef. rewrite shift_rounds_map. cbn [app].
  change 233 with m.
  rewrite <- (map_map (fun k => round_bit M (shifted k a) (shifted k b)) bit_char).
  rewrite read_back_bits by (now rewrite length_map, length_seq).
  rewrite rev_nth by (rewrite length_map, length_seq; lia).
  rewrite length_map, length_seq.
  rewrite (nth_indep _ false (round_bit M (shifted 0 a) (shifted 0 b)))
    by (rewrite length_map, length_seq; lia).
  rewrite (map_nth (fun k => round_bit M (shifted k a) (shifted k b))).
  rewrite seq_nth by lia. cbn [Nat.add].
  rewrite round_bit_xsum by now apply in_range_rows.
  apply xsum_ext_in. intros [i j] Hin. unfold term. cbn [fst snd].
  unfold in_range in HM. rewrite List.Forall_forall in HM.
  destruct (HM _ Hin) as [Hi Hj]. cbn [fst snd] in Hi, Hj.
  rewrite !coef_shifted by (try assumption; lia).
  f_equal; f_equal; f_equal; lia.
Qed.

(** * Part III: the multiplication matrix *)

Local Open Scope Z_scope.

(** ** Powers of two modulo [p] *)

Lemma pow2_S e : pow2 (S e) = Z.rem (pow2 e * 2) p.
Proof. unfold pow2. rewrite seq_S, fold_left_app. reflexivity. Qed.

(** The values handled by [mod_pow_2] never leave (0, p): no [int]
    overflow can occur, and no power of two vanishes modulo [p]. *)
Lemma pow2_range e : 0 < pow2 e < p.
Proof.
  induction e as [| e IH].
  - unfold pow2, p. cbn. lia.
  - rewrite pow2_S. unfold p in *.
    rewrite Z.rem_mod_nonneg by lia.
    pose proof (Z.mod_pos_bound (pow2 e * 2) 467 ltac:(lia)).
    pose proof (Z.div_mod (pow2 e * 2) 467 ltac:(lia)).
    lia.
Qed.

(** [mod_pow_2] computes the residue of the mathematical power. *)
Lemma pow2_spec e : pow2 e = 2 ^ Z.of_nat e mod p.
Proof.
  induction e as [| e IH].
  - reflexivity.
  - rewrite pow2_S, Z.rem_mod_nonneg
      by (pose proof (pow2_range e); unfold p in *; lia).
    rewrite IH, Nat2Z.inj_succ, Z.pow_succ_r by lia.
    rewrite Z.mul_mod_idemp_l by (unfold p; lia).
    f_equal. lia.
Qed.

(** ** The entry test *)

(** The test of [compute_matrix_element] on residues in (0, p), without
    remainders.  The comparison with -466 never succeeds. *)
Definition entry_fast (u v : Z) : bool :=
  (u + v =? 468) || (u - v =? 1) || (v - u =? 1) || (u + v =? 466).

Lemma entry_of_fast u v : 0 < u < p -> 0 < v < p ->
  (entry_of u v =? 1) = entry_fast u v.
Proof.
  unfold p. intros Hu Hv. unfold entry_of, results_of, entry_fast, p.
  cbn [existsb].
  rewrite (Z.rem_mod_nonneg (u + v)), (Z.rem_mod_nonneg (u - v + 467)),
    (Z.rem_mod_nonneg (- u + v + 467)) by lia.
  pose proof (Z.mod_pos_bound (u + v) 467 ltac:(lia)).
  pose proof (Z.div_mod (u + v) 467 ltac:(lia)).
  pose proof (Z.mod_pos_bound (u - v + 467) 467 ltac:(lia)).
  pose proof (Z.div_mod (u - v + 467) 467 ltac:(lia)).
  pose proof (Z.mod_pos_bound (- u + v + 467) 467 ltac:(lia)).
  pose proof (Z.div_mod (- u + v + 467) 467 ltac:(lia)).
  assert (Hfourth : Z.rem (- u - v + 467) 467 = - u - v + 467).
  { destruct (Z_le_gt_dec 0 (- u - v + 467)).
    - rewrite Z.rem_small; lia.
    - replace (- u - v + 467) with (- (u + v - 467)) by lia.
      rewrite Z.rem_opp_l by lia. rewrite Z.rem_small; lia. }
  rewrite Hfourth.
  assert (E1 : ((u + v) mod 467 =? 1) = (u + v =? 468))
    by (destruct (Z.eqb_spec ((u + v) mod 467) 1), (Z.eqb_spec (u + v) 468); lia).
  assert (E2 : ((u - v + 467) mod 467 =? 1) = (u - v =? 1))
    by (destruct (Z.eqb_spec ((u - v + 467) mod 467) 1), (Z.eqb_spec (u - v) 1); lia).
  assert (E3 : ((- u + v + 467) mod 467 =? 1) = (v - u =? 1))
    by (destruct (Z.eqb_spec ((- u + v + 467) mod 467) 1), (Z.eqb_spec (v - u) 1); lia).
  assert (E4 : (- u - v + 467 =? 1) = (u + v =? 466))
    by (destruct (Z.eqb_spec (- u - v + 467) 1), (Z.eqb_spec (u + v) 466); lia).
  assert (N1 : ((u + v) mod 467 =? -466) = false) by (apply Z.eqb_neq; lia).
  assert (N2 : ((u - v + 467) mod 467 =? -466) = false) by (apply Z.eqb_neq; lia).
  assert (N3 : ((- u + v + 467) mod 467 =? -466) = false) by (apply Z.eqb_neq; lia).
  assert (N4 : (- u - v + 467 =? -466) = false) by (apply Z.eqb_neq; lia).
  rewrite E1, E2, E3, E4, N1, N2, N3, N4.
  destruct (u + v =? 468), (u - v =? 1), (v - u =? 1), (u + v =? 466); reflexivity.
Qed.

(** ** Evaluating the matrix once *)

(** The successive powers, each obtained from the previous one. *)
Fixpoint pow_from (r : Z) (n : nat) : list Z :=
  match n with
  | O => []
  | S n' => r :: pow_from (Z.rem (r * 2) p) n'
  end.

Lemma map_pow2_seq n : forall k, map pow2 (seq k n) = pow_from (pow2 k) n.
Proof.
  induction n as [| n IH]; intros k; cbn [seq map pow_from]; [reflexivity |].
  now rewrite IH, pow2_S.
Qed.

(** The scan of one row over columns paired with their powers. *)
Fixpoint row_tab (i : nat) (u : Z) (jvs : list (nat * Z)) (prevVal : nat)
    (one_positions : list (nat * nat)) : list (nat * nat) :=
  match jvs with
  | [] => one_positions
  | (j, v) :: jvs' =>
      if entry_fast u v then
        if Nat.eqb (S prevVal) 2 then one_positions ++ [(i, j)]
        else row_tab i u jvs' (S prevVal) (one_positions ++ [(i, j)])
      else row_tab i u jvs' prevVal one_positions
  end.

Fixpoint rows_tab (ius jvs : list (nat * Z)) (one_positions : list (nat * nat))
    : list (nat * nat) :=
  match ius with
  | [] => one_positions
  | (i, u) :: ius' => rows_tab ius' jvs (row_tab i u jvs 0%nat one_positions)
  end.

Definition with_pow (l : list nat) : list (nat * Z) := map (fun j => (j, pow2 j)) l.

Lemma row_of_tab i js : forall prevVal ops,
  row_of i js prevVal ops = row_tab i (pow2 i) (with_pow js) prevVal ops.
Proof.
  induction js as [| j js IH]; intros prevVal ops; cbn [row_of with_pow map row_tab].
  - reflexivity.
  - fold (with_pow js). unfold matrix_entry.
    rewrite entry_of_fast by apply pow2_range.
    now rewrite !IH.
Qed.

Lemma rows_of_tab cols rows : forall ops,
  rows_of rows cols ops = rows_tab (with_pow rows) (with_pow cols) ops.
Proof.
  induction rows as [| i rows IH]; intros ops; cbn [rows_of with_pow map rows_tab].
  - reflexivity.
  - fold (with_pow rows). now rewrite IH, row_of_tab.
Qed.

Lemma with_pow_seq n :
  with_pow (seq 0 n) = combine (seq 0 n) (pow_from 1 n).
Proof.
  unfold with_pow. change 1 with (pow2 0). rewrite <- map_pow2_seq.
  induction (seq 0 n) as [| x l IH]; cbn [map combine]; [reflexivity |].
  now rewrite IH.
Qed.

(** The 465 marked positions, row by row. *)
Definition matrix_value : list (nat * nat) :=
  Eval vm_compute in
    let tab := combine (seq 0 m) (pow_from 1 m) in rows_tab tab tab [].

Lemma matrix_eq : matrix = matrix_value.
Proof.
  unfold matrix. rewrite rows_of_tab, with_pow_seq.
  vm_compute. reflexivity.
Qed.

Local Open Scope nat_scope.

Lemma matrix_in_range : in_range matrix.
Proof.
  rewrite matrix_eq. unfold in_range. apply List.Forall_forall.
  assert (H : forallb (fun e => (fst e <? m) && (snd e <? m)) matrix_value = true)
    by (vm_compute; reflexivity).
  rewrite forallb_forall in H. intros e He. specialize (H e He).
  apply andb_true_iff in H. destruct H as [H1 H2].
  split; now apply Nat.ltb_lt.
Qed.

(** ** The product, coefficient by coefficient *)

Lemma mul_unfold a b : mul a b = mul_with matrix a b.
Proof. reflexivity. Qed.

Lemma wf_mul a b : wf (mul a b).
Proof. apply wf_of_vector. Qed.

Lemma coef_mul a b n : wf a -> wf b -> n < m ->
  coef (mul a b) n = xsum (term a b n) matrix.
Proof.
  intros. rewrite mul_unfold.
  apply coef_mul_with; auto using matrix_in_range.
Qed.

(** * Part IV: linear structure *)

Lemma wf_zero : wf zero.
Proof. apply wf_of_vector. Qed.

Lemma wf_identity : wf identity.
Proof. apply wf_of_vector. Qed.

Lemma coef_zero n : coef zero n = false.
Proof.
  unfold coef, zero. cbn [GF2mElement_of_vector coefficients].
  rewrite resize_nil. apply nth_replicate_same.
Qed.

Lemma coef_identity n : n < m -> coef identity n = true.
Proof.
  intros H. unfold coef, identity.
  rewrite of_vector_full by apply length_replicate.
  now apply nth_replicate.
Qed.

Lemma coef_nth a n : coef a n = nth n (coefficients a) false.
Proof. reflexivity. Qed.

Lemma wf_length a : wf a <-> length (coefficients a) = m.
Proof. reflexivity. Qed.

Lemma coefficients_identity : coefficients identity = replicate m true.
Proof. unfold identity. apply of_vector_full, length_replicate. Qed.

Lemma mul_with_unfold M a b : mul_with M a b = read_back (shift_rounds M 233 a b []).
Proof. reflexivity. Qed.

Lemma matrix_unfold : matrix = rows_of (seq 0 m) (seq 0 m) [].
Proof. reflexivity. Qed.

(** From here on the operations are used through their coefficient
    formulas only. *)
#[local] Opaque mul mul_with operator_plus squareONB cyclicLeftShift zero identity
  m wf coef matrix.

Create HintDb gf discriminated.
#[local] Hint Constants Opaque : gf.
#[local] Hint Resolve wf_operator_plus wf_squareONB wf_mul wf_zero wf_identity
  wf_cyclicLeftShift : gf.

Ltac gf := solve [auto with gf nocore].

Lemma index_lt n k : (n + k) mod m < m.
Proof. apply Nat.mod_upper_bound. pose proof m_pos. lia. Qed.

#[local] Hint Resolve index_lt : gf.

Lemma coef_plus a b n : n < m ->
  coef (operator_plus a b) n = xorb (coef a n) (coef b n).
Proof.
  intros H. rewrite coef_operator_plus.
  destruct (Nat.ltb_spec n m); [reflexivity | lia].
Qed.

Lemma plus_comm a b : operator_plus a b = operator_plus b a.
Proof.
  apply wf_ext; try apply wf_operator_plus.
  intros n Hn. rewrite !coef_plus by assumption. apply xorb_comm.
Qed.

Lemma plus_assoc a b c :
  operator_plus (operator_plus a b) c = operator_plus a (operator_plus b c).
Proof.
  apply wf_ext; try apply wf_operator_plus.
  intros n Hn. rewrite !coef_plus by assumption. apply xorb_assoc.
Qed.

Lemma plus_zero_r a : wf a -> operator_plus a zero = a.
Proof.
  intros Ha. apply wf_ext; [apply wf_operator_plus | assumption |].
  intros n Hn. rewrite coef_plus, coef_zero by assumption. apply xorb_false_r.
Qed.

Lemma plus_zero_l a : wf a -> operator_plus zero a = a.
Proof. intros. rewrite plus_comm. now apply plus_zero_r. Qed.

Lemma plus_self a : operator_plus a a = zero.
Proof.
  apply wf_ext; [apply wf_operator_plus | apply wf_zero |].
  intros n Hn. rewrite coef_plus, coef_zero by assumption. apply xorb_nilpotent.
Qed.

(** Multiplication is additive in each argument and kills [zero]. *)
Lemma mul_plus_l a b c : wf a -> wf b -> wf c ->
  mul (operator_plus a b) c = operator_plus (mul a c) (mul b c).
Proof.
  intros Ha Hb Hc. apply wf_ext; [apply wf_mul | apply wf_operator_plus |].
  intros n Hn. rewrite coef_plus by assumption.
  rewrite !coef_mul by gf.
  rewrite <- xsum_xorb. apply xsum_ext_in. intros e _. unfold term.
  rewrite coef_plus by apply index_lt.
  now destruct (coef a _), (coef b _), (coef c _).
Qed.

Lemma mul_plus_r a b c : wf a -> wf b -> wf c ->
  mul c (operator_plus a b) = operator_plus (mul c a) (mul c b).
Proof.
  intros Ha Hb Hc. apply wf_ext; [apply wf_mul | apply wf_operator_plus |].
  intros n Hn. rewrite coef_plus by assumption.
  rewrite !coef_mul by gf.
  rewrite <- xsum_xorb. apply xsum_ext_in. intros e _. unfold term.
  rewrite coef_plus by apply index_lt.
  now destruct (coef a _), (coef b _), (coef c _).
Qed.

Lemma mul_zero_l a : wf a -> mul zero a = zero.
Proof.
  intros Ha. apply wf_ext; [apply wf_mul | apply wf_zero |].
  intros n Hn. rewrite coef_mul, coef_zero by gf.
  rewrite (xsum_ext_in _ (fun _ => false)); [apply xsum_false |].
  intros e _. unfold term. now rewrite coef_zero.
Qed.

Lemma mul_zero_r a : wf a -> mul a zero = zero.
Proof.
  intros Ha. apply wf_ext; [apply wf_mul | apply wf_zero |].
  intros n Hn. rewrite coef_mul, coef_zero by gf.
  rewrite (xsum_ext_in _ (fun _ => false)); [apply xsum_false |].
  intros e _. unfold term. rewrite coef_zero. apply andb_false_r.
Qed.

(** Squaring (a rotation) is additive and commutes with the product. *)
Lemma sq_plus a b : wf a -> wf b ->
  squareONB (operator_plus a b) = operator_plus (squareONB a) (squareONB b).
Proof.
  intros Ha Hb. apply wf_ext; [apply wf_squareONB | apply wf_operator_plus |].
  intros n Hn. rewrite coef_plus by assumption.
  rewrite (coef_squareONB a), (coef_squareONB b) by gf.
  rewrite (coef_squareONB (operator_plus a b)) by gf.
  apply coef_plus. apply index_lt.
Qed.

Lemma sq_zero : squareONB zero = zero.
Proof.
  apply wf_ext; [apply wf_squareONB | apply wf_zero |].
  intros n Hn. rewrite coef_squareONB by gf.
  now rewrite !coef_zero.
Qed.

Lemma sq_mul a b : wf a -> wf b ->
  squareONB (mul a b) = mul (squareONB a) (squareONB b).
Proof.
  intros Ha Hb. pose proof m_pos as Hm.
  apply wf_ext; [apply wf_squareONB | apply wf_mul |].
  intros n Hn. rewrite coef_squareONB by gf.
  rewrite (coef_mul a b), (coef_mul (squareONB a))
    by gf.
  apply xsum_ext_in. intros e _. unfold term.
  rewrite (coef_squareONB a), (coef_squareONB b)
    by gf.
  rewrite !mod_shift by lia.
  f_equal; f_equal; f_equal; lia.
Qed.

(** ** Basis vectors and induction on elements *)

(** The element whose only set coefficient is [x]. *)
Definition basis (x : nat) : GF2mElement :=
  GF2mElement_of_vector (<[x := true]> (replicate m false)).

Lemma wf_basis x : wf (basis x).
Proof. apply wf_of_vector. Qed.

#[local] Hint Resolve wf_basis : gf.

Lemma coef_basis x n : x < m -> coef (basis x) n = (n =? x).
Proof.
  intros Hx. unfold basis. rewrite coef_nth.
  rewrite of_vector_full by (rewrite length_insert; apply length_replicate).
  destruct (Nat.eqb_spec n x) as [-> | Hne].
  - apply nth_insert_eq. now rewrite length_replicate.
  - rewrite nth_insert_ne by congruence. apply nth_replicate_same.
Qed.

(** The coefficients of [a] below [k], as a sum of basis vectors. *)
Fixpoint partial (a : GF2mElement) (k : nat) : GF2mElement :=
  match k with
  | O => zero
  | S k' =>
      if coef a k' then operator_plus (partial a k') (basis k') else partial a k'
  end.

Lemma wf_partial a k : wf (partial a k).
Proof. induction k as [| k IH]; cbn [partial]; [gf |]. destruct (coef a k); gf. Qed.

Lemma coef_partial a k : forall n, k <= m -> n < m ->
  coef (partial a k) n = (n <? k) && coef a n.
Proof.
  induction k as [| k IH]; intros n Hk Hn; cbn [partial].
  - apply coef_zero.
  - destruct (coef a k) eqn:E.
    + rewrite coef_plus, IH, coef_basis by lia.
      destruct (Nat.eqb_spec n k) as [-> | Hne].
      * rewrite E. destruct (Nat.ltb_spec k k), (Nat.ltb_spec k (S k)); try lia.
        reflexivity.
      * rewrite xorb_false_r.
        destruct (Nat.ltb_spec n k), (Nat.ltb_spec n (S k)); try lia; reflexivity.
    + rewrite IH by lia.
      destruct (Nat.eqb_spec n k) as [-> | Hne].
      * rewrite E, !andb_false_r. reflexivity.
      * destruct (Nat.ltb_spec n k), (Nat.ltb_spec n (S k)); try lia; reflexivity.
Qed.

Lemma partial_all a : wf a -> partial a m = a.
Proof.
  intros Ha. apply wf_ext; [apply wf_partial | assumption |].
  intros n Hn. rewrite coef_partial by lia.
  destruct (Nat.ltb_spec n m); [reflexivity | lia].
Qed.

(** Every element is reached from [zero] by adding basis vectors. *)
Lemma element_ind (P : GF2mElement -> Prop) :
  P zero ->
  (forall a x, wf a -> x < m -> P a -> P (operator_plus a (basis x))) ->
  forall a, wf a -> P a.
Proof.
  intros H0 Hstep a Ha. rewrite <- (partial_all a Ha).
  assert (H : forall k, k <= m -> P (partial a k)).
  { induction k as [| k IH]; intros Hk; cbn [partial]; [assumption |].
    destruct (coef a k).
    - apply Hstep; [apply wf_partial | lia | apply IH; lia].
    - apply IH. lia. }
  now apply H.
Qed.

(** Two additive maps that agree on the basis agree everywhere. *)
Lemma additive_ext (f g : GF2mElement -> GF2mElement) :
  (forall a b, wf a -> wf b -> f (operator_plus a b) = operator_plus (f a) (f b)) ->
  (forall a b, wf a -> wf b -> g (operator_plus a b) = operator_plus (g a) (g b)) ->
  f zero = g zero ->
  (forall x, x < m -> f (basis x) = g (basis x)) ->
  forall a, wf a -> f a = g a.
Proof.
  intros Hf Hg H0 Hb. apply element_ind; [assumption |].
  intros a x Ha Hx IH. rewrite Hf, Hg by gf. now rewrite IH, Hb.
Qed.

(** * Part V: the normal basis behind the matrix

    Coefficient [x] stands for the basis element attached to the residue
    class of [+-2^(-x)] modulo [p].  [gamma s] is the basis vector of the
    class of [s], and [zero] when [p] divides [s]. *)

Local Open Scope Z_scope.

Definition pow_table : list Z := Eval vm_compute in pow_from 1 m.

(** For each residue [r] in [1, p): the [x] with [r * 2^x = +-1 (mod p)]. *)
Definition dlog_table : list Z :=
  Eval vm_compute in
    map (fun r =>
           match find (fun xw => let w := (r * snd xw) mod p in
                                 (w =? 1) || (w =? p - 1))
                      (combine (map Z.of_nat (seq 0 m)) (pow_from 1 m)) with
           | Some xw => fst xw
           | None => 0
           end)
        (map Z.of_nat (seq 0 467)).

Definition dlogZ (r : Z) : Z := nth (Z.to_nat r) dlog_table 0.
Definition dlog (r : Z) : nat := Z.to_nat (dlogZ r).

(** A residue for each coefficient index. *)
Definition rep_table : list Z :=
  Eval vm_compute in map (fun x => 2 ^ (466 - Z.of_nat x) mod p) (seq 0 m).

Definition gamma (s : Z) : GF2mElement :=
  let r := s mod p in
  if r =? 0 then zero else basis (dlog r).

Definition residues : list Z := map Z.of_nat (seq 1 466).

Lemma in_residues r : 1 <= r < p -> In r residues.
Proof.
  intros H. unfold residues. apply in_map_iff. exists (Z.to_nat r).
  split; [lia |]. apply in_seq. unfold p in H. lia.
Qed.

Lemma residues_forall (check : Z -> bool) :
  forallb check residues = true -> forall r, 1 <= r < p -> check r = true.
Proof.
  intros H r Hr. rewrite forallb_forall in H. apply H. now apply in_residues.
Qed.

(** ** Facts read off the tables *)

Lemma pow_table_eq : pow_from 1 m = pow_table.
Proof. vm_compute. reflexivity. Qed.

Lemma nth_pow_table k : (k < m)%nat -> nth k pow_table 0 = pow2 k.
Proof.
  intros Hk. rewrite <- pow_table_eq. change 1 with (pow2 0) at 1.
  rewrite <- map_pow2_seq.
  rewrite (nth_indep _ 0 (pow2 0)) by (now rewrite length_map, length_seq).
  rewrite map_nth, seq_nth by assumption. reflexivity.
Qed.

Lemma dlogZ_range r : 1 <= r < p -> 0 <= dlogZ r < 233.
Proof.
  revert r. intros r Hr.
  assert (H : forallb (fun r => (0 <=? dlogZ r) && (dlogZ r <? 233)) residues = true)
    by (vm_compute; reflexivity).
  pose proof (residues_forall _ H r Hr) as E. cbn beta in E. lia.
Qed.

Lemma dlog_lt r : 1 <= r < p -> (dlog r < m)%nat.
Proof. intros Hr. pose proof (dlogZ_range r Hr). unfold dlog. rewrite m_val. lia. Qed.

Lemma dlogZ_neg r : 1 <= r < p -> dlogZ (p - r) = dlogZ r.
Proof.
  intros Hr.
  assert (H : forallb (fun r => dlogZ (p - r) =? dlogZ r) residues = true)
    by (vm_compute; reflexivity).
  pose proof (residues_forall _ H r Hr) as E. cbn beta in E. lia.
Qed.

Lemma dlogZ_double r : 1 <= r < p ->
  dlogZ ((2 * r) mod p) = (dlogZ r + 232) mod 233.
Proof.
  intros Hr.
  assert (H : forallb (fun r => dlogZ ((2 * r) mod p) =? (dlogZ r + 232) mod 233)
                residues = true)
    by (vm_compute; reflexivity).
  pose proof (residues_forall _ H r Hr) as E. cbn beta in E. lia.
Qed.

(** Every residue is a power of two up to sign. *)
Lemma orbit r : 1 <= r < p -> exists k : nat, r = pow2 k \/ r = p - pow2 k.
Proof.
  intros Hr.
  assert (H : forallb (fun r =>
                let w := nth (Z.to_nat ((233 - dlogZ r) mod 233)) pow_table 0 in
                (w =? r) || (p - w =? r)) residues = true)
    by (vm_compute; reflexivity).
  pose proof (residues_forall _ H r Hr) as E. cbn beta zeta in E.
  exists (Z.to_nat ((233 - dlogZ r) mod 233)).
  rewrite nth_pow_table in E.
  - apply orb_true_iff in E. destruct E as [E | E]; apply Z.eqb_eq in E; lia.
  - pose proof (Z.mod_pos_bound (233 - dlogZ r) 233 ltac:(lia)).
    rewrite m_val. lia.
Qed.

(** Every coefficient index is the class of some residue. *)
Lemma rep_exists x : (x < m)%nat -> exists r, 1 <= r < p /\ dlog r = x.
Proof.
  intros Hx.
  assert (H : forallb (fun xr => (1 <=? snd xr) && (snd xr <? p)
                                 && (dlogZ (snd xr) =? fst xr))
                (combine (map Z.of_nat (seq 0 m)) rep_table) = true)
    by (vm_compute; reflexivity).
  rewrite forallb_forall in H.
  specialize (H (Z.of_nat x, nth x rep_table 0)).
  assert (Hin : In (Z.of_nat x, nth x rep_table 0)
                  (combine (map Z.of_nat (seq 0 m)) rep_table)).
  { replace (Z.of_nat x, nth x rep_table 0)
      with (nth x (combine (map Z.of_nat (seq 0 m)) rep_table) (0, 0)).
    - apply nth_In. rewrite length_combine, length_map, length_seq.
      change (length rep_table) with m. lia.
    - rewrite combine_nth by reflexivity.
      f_equal. rewrite (nth_indep _ 0 (Z.of_nat 0))
        by (now rewrite length_map, length_seq).
      rewrite map_nth, seq_nth by assumption. reflexivity. }
  specialize (H Hin). cbn [fst snd] in H.
  exists (nth x rep_table 0). unfold dlog. lia.
Qed.

(** ** The vectors [gamma s] *)

Lemma p_val : p = 467.
Proof. reflexivity. Qed.

Lemma residue_range s : s mod p <> 0 -> 1 <= s mod p < p.
Proof. intros H. pose proof (Z.mod_pos_bound s p ltac:(rewrite p_val; lia)). lia. Qed.

Lemma gamma_zero s : s mod p = 0 -> gamma s = zero.
Proof. intros H. unfold gamma. now rewrite H. Qed.

Lemma gamma_basis s : s mod p <> 0 -> gamma s = basis (dlog (s mod p)).
Proof.
  intros H. unfold gamma. cbn zeta.
  destruct (Z.eqb_spec (s mod p) 0); [contradiction | reflexivity].
Qed.

Lemma wf_gamma s : wf (gamma s).
Proof. unfold gamma. cbn zeta. destruct (_ =? _); gf. Qed.

#[local] Hint Resolve wf_gamma : gf.

Lemma gamma_congr s t : s mod p = t mod p -> gamma s = gamma t.
Proof. intros H. unfold gamma. now rewrite H. Qed.

Lemma gamma_neg s : gamma (- s) = gamma s.
Proof.
  destruct (Z.eq_dec (s mod p) 0) as [E | E].
  - rewrite !gamma_zero; auto. apply Z.mod_opp_l_z; [rewrite p_val; lia | assumption].
  - assert (E' : (- s) mod p = p - s mod p)
      by (apply Z.mod_opp_l_nz; [rewrite p_val; lia | assumption]).
    pose proof (residue_range s E) as Hr.
    rewrite (gamma_basis s E), gamma_basis, E' by lia.
    unfold dlog. now rewrite dlogZ_neg.
Qed.

Lemma sq_basis x : (x < m)%nat ->
  squareONB (basis x) = basis ((x + (m - 1)) mod m).
Proof.
  intros Hx. pose proof m_pos as Hm.
  apply wf_ext; [gf | gf |]. intros n Hn.
  rewrite coef_squareONB by gf.
  rewrite !coef_basis by (try assumption; apply index_lt).
  rewrite (mod_once m (n + 1)), (mod_once m (x + (m - 1))) by lia.
  repeat match goal with
         | |- context [(?a <? ?b)%nat] => destruct (Nat.ltb_spec a b)
         | |- context [(?a =? ?b)%nat] => destruct (Nat.eqb_spec a b)
         end; try reflexivity; lia.
Qed.

Lemma double_residue r : 1 <= r < p -> (2 * r) mod p <> 0.
Proof.
  rewrite p_val. intros Hr E.
  pose proof (Z.div_mod (2 * r) 467 ltac:(lia)). lia.
Qed.

Lemma sq_gamma s : squareONB (gamma s) = gamma (2 * s).
Proof.
  assert (Hp : p <> 0) by (rewrite p_val; lia).
  destruct (Z.eq_dec (s mod p) 0) as [E | E].
  - rewrite (gamma_zero s E), gamma_zero, sq_zero; [reflexivity |].
    rewrite <- Z.mul_mod_idemp_r, E by assumption. reflexivity.
  - pose proof (residue_range s E) as Hr.
    assert (E2 : (2 * s) mod p = (2 * (s mod p)) mod p)
      by (now rewrite Z.mul_mod_idemp_r).
    rewrite (gamma_basis s E), gamma_basis
      by (rewrite E2; now apply double_residue).
    rewrite sq_basis by now apply dlog_lt.
    f_equal. rewrite E2. unfold dlog. rewrite dlogZ_double by assumption.
    pose proof (dlogZ_range _ Hr) as Hd.
    rewrite m_val. apply Nat2Z.inj.
    pose proof (Z.mod_pos_bound (dlogZ (s mod p) + 232) 233 ltac:(lia)).
    rewrite Nat2Z.inj_mod, Nat2Z.inj_add, !Z2Nat.id by lia.
    reflexivity.
Qed.

(** ** Products of basis vectors, read off the matrix *)

Local Open Scope nat_scope.

(** Column minus row of a marked position, modulo [m]. *)
Definition diff (e : nat * nat) : nat := (snd e + (m - fst e)) mod m.

Lemma term_basis0 y n e :
  fst e < m -> snd e < m -> y < m -> n < m ->
  term (basis 0) (basis y) n e = (n =? snd e) && (diff e =? y).
Proof.
  intros Hi Hj Hy Hn. pose proof m_pos as Hm. unfold term, diff.
  rewrite !coef_basis by (try assumption; apply index_lt).
  rewrite (mod_once m (n + (m - snd e))) by lia.
  destruct (Nat.eqb_spec n (snd e)) as [-> | Hne].
  - destruct (Nat.ltb_spec (snd e + (m - snd e)) m); [lia |].
    replace (snd e + (m - snd e) - m) with 0 by lia. reflexivity.
  - destruct (Nat.ltb_spec (n + (m - snd e)) m);
      match goal with
      | |- context [(?a =? 0)%nat] => destruct (Nat.eqb_spec a 0)
      end; try reflexivity; lia.
Qed.

Local Open Scope Z_scope.

(** The marked positions as (column - row, column), in binary. *)
Definition diff_value : list (Z * Z) :=
  Eval vm_compute in
    map (fun e => (Z.of_nat (diff e), Z.of_nat (snd e))) matrix_value.

Lemma diff_eq :
  map (fun e => (Z.of_nat (diff e), Z.of_nat (snd e))) matrix = diff_value.
Proof. rewrite matrix_eq. vm_compute. reflexivity. Qed.

(** The columns of the positions whose difference is [y]. *)
Definition hits (y : Z) : list Z :=
  map snd (List.filter (fun d => fst d =? y) diff_value).

(** The coefficient indices set in [gamma s]. *)
Definition idx (s : Z) : list Z :=
  let r := s mod p in if r =? 0 then [] else [dlogZ r].

Lemma xsum_filter {A} (f g : A -> bool) l :
  xsum (fun x => f x && g x) l = xsum f (List.filter g l).
Proof.
  induction l as [| x l IH]; [reflexivity |].
  cbn [List.filter]. rewrite xsum_cons, IH.
  destruct (g x).
  - now rewrite xsum_cons, andb_true_r.
  - now rewrite andb_false_r, xorb_false_l.
Qed.

Lemma xsum_rev {A} (f : A -> bool) l : xsum f (rev l) = xsum f l.
Proof.
  induction l as [| x l IH]; [reflexivity |].
  cbn [rev]. rewrite xsum_app, IH, !xsum_cons.
  change (xsum f []) with false. rewrite xorb_false_r. apply xorb_comm.
Qed.

Lemma coef_mul_basis0 y n : (y < m)%nat -> (n < m)%nat ->
  coef (mul (basis 0) (basis y)) n
  = xsum (fun j => Z.of_nat n =? j) (hits (Z.of_nat y)).
Proof.
  intros Hy Hn. rewrite coef_mul by gf.
  unfold hits. rewrite xsum_map, <- xsum_filter, <- diff_eq, xsum_map.
  apply xsum_ext_in. intros e He. cbn [fst snd].
  pose proof matrix_in_range as HM. unfold in_range in HM.
  rewrite List.Forall_forall in HM. destruct (HM e He) as [Hi Hj].
  rewrite term_basis0 by assumption.
  f_equal.
  - destruct (Nat.eqb_spec n (snd e)), (Z.eqb_spec (Z.of_nat n) (Z.of_nat (snd e)));
      try reflexivity; lia.
  - destruct (Nat.eqb_spec (diff e) y), (Z.eqb_spec (Z.of_nat (diff e)) (Z.of_nat y));
      try reflexivity; lia.
Qed.

Lemma coef_gamma s n : (n < m)%nat ->
  coef (gamma s) n = xsum (fun j => Z.of_nat n =? j) (idx s).
Proof.
  intros Hn. unfold idx. cbn zeta.
  destruct (Z.eqb_spec (s mod p) 0) as [E | E].
  - rewrite gamma_zero by assumption. apply coef_zero.
  - pose proof (residue_range s E) as Hr. pose proof (dlogZ_range _ Hr) as Hd.
    rewrite gamma_basis, coef_basis by (try assumption; now apply dlog_lt).
    rewrite xsum_cons. change (xsum _ []) with false. rewrite xorb_false_r.
    unfold dlog.
    destruct (Nat.eqb_spec n (Z.to_nat (dlogZ (s mod p)))),
             (Z.eqb_spec (Z.of_nat n) (dlogZ (s mod p))); try reflexivity; lia.
Qed.

Lemma idx_congr s t : s mod p = t mod p -> idx s = idx t.
Proof. intros H. unfold idx. now rewrite H. Qed.

Fixpoint zlist_eqb (l1 l2 : list Z) : bool :=
  match l1, l2 with
  | [], [] => true
  | x :: l1', y :: l2' => (x =? y) && zlist_eqb l1' l2'
  | _, _ => false
  end.

Lemma zlist_eqb_eq l1 : forall l2, zlist_eqb l1 l2 = true -> l1 = l2.
Proof.
  induction l1 as [| x l1 IH]; intros [| y l2] H; cbn [zlist_eqb] in H;
    try discriminate; [reflexivity |].
  apply andb_true_iff in H. destruct H as [H1 H2].
  apply Z.eqb_eq in H1. subst. f_equal. now apply IH.
Qed.

(** The defining relation with the first basis vector, checked against
    the matrix for every residue. *)
Definition check_first (r : Z) : bool :=
  let L := hits (dlogZ r) in
  let R := idx (1 + r) ++ idx (1 - r) in
  zlist_eqb L R || zlist_eqb L (rev R).

Lemma check_first_all : forallb check_first residues = true.
Proof. vm_compute. reflexivity. Qed.

Lemma check_first_sound r : check_first r = true ->
  hits (dlogZ r) = idx (1 + r) ++ idx (1 - r) \/
  hits (dlogZ r) = rev (idx (1 + r) ++ idx (1 - r)).
Proof.
  unfold check_first. cbn zeta. intros Hc.
  apply orb_true_iff in Hc. destruct Hc as [Hc | Hc];
    apply zlist_eqb_eq in Hc; auto.
Qed.

Lemma gamma_one : gamma 1 = basis 0.
Proof. reflexivity. Qed.

Lemma mul_gamma_one v :
  mul (gamma 1) (gamma v) = operator_plus (gamma (1 + v)) (gamma (1 - v)).
Proof.
  assert (Hp : p <> 0) by (rewrite p_val; lia).
  destruct (Z.eq_dec (v mod p) 0) as [E | E].
  - rewrite (gamma_zero v E), mul_zero_r by gf.
    rewrite (gamma_congr (1 + v) 1), (gamma_congr (1 - v) 1).
    + now rewrite plus_self.
    + rewrite Zminus_mod, E. now rewrite Z.sub_0_r, Z.mod_mod.
    + rewrite Zplus_mod, E. now rewrite Z.add_0_r, Z.mod_mod.
  - pose proof (residue_range v E) as Hr.
    pose proof (dlogZ_range _ Hr) as Hd.
    pose proof (check_first_sound _ (residues_forall _ check_first_all _ Hr)) as Hc.
    rewrite gamma_one, (gamma_basis v E).
    apply wf_ext; [gf | gf |]. intros n Hn.
    rewrite coef_mul_basis0 by (try assumption; now apply dlog_lt).
    rewrite coef_plus, !coef_gamma, <- xsum_app by assumption.
    rewrite (idx_congr (1 + v) (1 + v mod p)), (idx_congr (1 - v) (1 - v mod p)).
    + unfold dlog. rewrite Z2Nat.id by lia.
      destruct Hc as [Hc | Hc]; rewrite Hc; [reflexivity | apply xsum_rev].
    + now rewrite Zminus_mod_idemp_r.
    + now rewrite Zplus_mod_idemp_r.
Qed.

(** ** The product rule [gamma u * gamma v = gamma (u+v) + gamma (u-v)] *)

#[local] Opaque gamma basis dlog dlogZ hits idx.

Lemma plus_gamma_congr a b a' b' :
  a mod p = a' mod p -> b mod p = b' mod p ->
  operator_plus (gamma a) (gamma b) = operator_plus (gamma a') (gamma b').
Proof.
  intros E1 E2. rewrite (gamma_congr a a' E1), (gamma_congr b b' E2). reflexivity.
Qed.

Definition product_rule (u : Z) : Prop :=
  forall v, mul (gamma u) (gamma v) = operator_plus (gamma (u + v)) (gamma (u - v)).

Lemma product_rule_congr u u' :
  u mod p = u' mod p -> product_rule u -> product_rule u'.
Proof.
  intros E H v.
  rewrite <- (gamma_congr u u' E), (H v).
  apply plus_gamma_congr.
  - now rewrite (Zplus_mod u), (Zplus_mod u'), E.
  - now rewrite (Zminus_mod u), (Zminus_mod u'), E.
Qed.

Lemma product_rule_double u : product_rule u -> product_rule (2 * u).
Proof.
  intros H v.
  assert (Ev : gamma v = gamma (2 * (234 * v))).
  { apply gamma_congr. replace (2 * (234 * v)) with (v + v * p) by (rewrite p_val; lia).
    now rewrite Z_mod_plus_full. }
  rewrite Ev, <- (sq_gamma u), <- (sq_gamma (234 * v)).
  rewrite <- (sq_mul (gamma u) (gamma (234 * v))) by gf.
  rewrite (H (234 * v)).
  rewrite (sq_plus (gamma (u + 234 * v)) (gamma (u - 234 * v))) by gf.
  rewrite (sq_gamma (u + 234 * v)), (sq_gamma (u - 234 * v)).
  apply plus_gamma_congr.
  - replace (2 * (u + 234 * v)) with (2 * u + v + v * p) by (rewrite p_val; lia).
    apply Z_mod_plus_full.
  - replace (2 * (u - 234 * v)) with (2 * u - v + - v * p) by (rewrite p_val; lia).
    apply Z_mod_plus_full.
Qed.

Lemma product_rule_pow (k : nat) : product_rule (2 ^ Z.of_nat k).
Proof.
  induction k as [| k IH].
  - intros v. apply mul_gamma_one.
  - rewrite Nat2Z.inj_succ, Z.pow_succ_r by lia. now apply product_rule_double.
Qed.

Lemma product_rule_neg u : product_rule u -> product_rule (- u).
Proof.
  intros H v. rewrite (gamma_neg u), (H v), plus_comm.
  rewrite <- (gamma_neg (u - v)), <- (gamma_neg (u + v)).
  apply plus_gamma_congr; f_equal; lia.
Qed.

Lemma product_rule_zero u : u mod p = 0 -> product_rule u.
Proof.
  intros E v. assert (Hp : p <> 0) by (rewrite p_val; lia).
  rewrite (gamma_zero u E), mul_zero_l by gf.
  rewrite <- (plus_self (gamma v)). rewrite <- (gamma_neg v) at 2.
  apply plus_gamma_congr.
  - rewrite (Zplus_mod u), E, Z.add_0_l. symmetry. now apply Z.mod_mod.
  - rewrite <- (Z.sub_0_l v).
    rewrite (Zminus_mod u), (Zminus_mod 0), E, Z.mod_0_l by assumption.
    reflexivity.
Qed.

Theorem product_rule_all u : product_rule u.
Proof.
  assert (Hp : p <> 0) by (rewrite p_val; lia).
  destruct (Z.eq_dec (u mod p) 0) as [E | E]; [now apply product_rule_zero |].
  destruct (orbit (u mod p) (residue_range u E)) as [k [Hk | Hk]].
  - apply (product_rule_congr (2 ^ Z.of_nat k)); [| apply product_rule_pow].
    rewrite <- pow2_spec. symmetry. exact Hk.
  - apply (product_rule_congr (- 2 ^ Z.of_nat k));
      [| apply product_rule_neg, product_rule_pow].
    rewrite Hk, pow2_spec. apply Z.mod_opp_l_nz; [assumption |].
    rewrite <- pow2_spec. pose proof (pow2_range k). lia.
Qed.

(** * Part VI: the ring laws of [operator*] *)

(** Equalities between sums, coefficient by coefficient. *)
Ltac plus_ring :=
  apply wf_ext; [gf | gf |];
  let n := fresh "n" in let Hn := fresh "Hn" in
  intros n Hn; rewrite ?coef_plus by assumption;
  repeat match goal with
         | |- context [coef ?a n] =>
             let c := fresh "c" in
             generalize (coef a n); intros c; try clear a
         end;
  repeat match goal with c : bool |- _ => destruct c end; reflexivity.

Lemma basis_is_gamma x : (x < m)%nat -> exists r, basis x = gamma r.
Proof.
  intros Hx. destruct (rep_exists x Hx) as (r & Hr & E).
  exists r. rewrite gamma_basis.
  - rewrite Z.mod_small by lia. now rewrite E.
  - rewrite Z.mod_small by lia. lia.
Qed.

Lemma mul_gamma_comm r s : mul (gamma r) (gamma s) = mul (gamma s) (gamma r).
Proof.
  rewrite (product_rule_all r s), (product_rule_all s r).
  rewrite <- (gamma_neg (s - r)).
  apply plus_gamma_congr; f_equal; lia.
Qed.

Lemma mul_gamma_assoc r s t :
  mul (mul (gamma r) (gamma s)) (gamma t) = mul (gamma r) (mul (gamma s) (gamma t)).
Proof.
  rewrite (product_rule_all r s), (product_rule_all s t).
  rewrite (mul_plus_l (gamma (r + s)) (gamma (r - s)) (gamma t)) by gf.
  rewrite (mul_plus_r (gamma (s + t)) (gamma (s - t)) (gamma r)) by gf.
  rewrite (product_rule_all (r + s) t), (product_rule_all (r - s) t).
  rewrite (product_rule_all r (s + t)), (product_rule_all r (s - t)).
  replace (r + (s + t)) with (r + s + t) by lia.
  replace (r - (s + t)) with (r - s - t) by lia.
  replace (r + (s - t)) with (r + s - t) by lia.
  replace (r - (s - t)) with (r - s + t) by lia.
  plus_ring.
Qed.

Local Open Scope nat_scope.

Lemma mul_basis_comm x y : x < m -> y < m ->
  mul (basis x) (basis y) = mul (basis y) (basis x).
Proof.
  intros Hx Hy.
  destruct (basis_is_gamma x Hx) as [r ->].
  destruct (basis_is_gamma y Hy) as [s ->].
  apply mul_gamma_comm.
Qed.

Lemma mul_basis_assoc x y z : x < m -> y < m -> z < m ->
  mul (mul (basis x) (basis y)) (basis z) = mul (basis x) (mul (basis y) (basis z)).
Proof.
  intros Hx Hy Hz.
  destruct (basis_is_gamma x Hx) as [r ->].
  destruct (basis_is_gamma y Hy) as [s ->].
  destruct (basis_is_gamma z Hz) as [t ->].
  apply mul_gamma_assoc.
Qed.

(** [operator*] is commutative. *)
Theorem mul_comm a b : wf a -> wf b -> mul a b = mul b a.
Proof.
  intros Ha Hb. revert a Ha.
  apply (additive_ext (fun a => mul a b) (fun a => mul b a)); cbn beta.
  - intros; now apply mul_plus_l.
  - intros; now apply mul_plus_r.
  - now rewrite mul_zero_l, mul_zero_r.
  - intros x Hx. revert b Hb.
    apply (additive_ext (fun b => mul (basis x) b) (fun b => mul b (basis x))); cbn beta.
    + intros; apply mul_plus_r; gf.
    + intros; apply mul_plus_l; gf.
    + rewrite mul_zero_l, mul_zero_r by gf. reflexivity.
    + intros y Hy. now apply mul_basis_comm.
Qed.

(** [operator*] is associative. *)
Theorem mul_assoc a b c : wf a -> wf b -> wf c ->
  mul (mul a b) c = mul a (mul b c).
Proof.
  intros Ha Hb Hc. revert a Ha.
  apply (additive_ext (fun a => mul (mul a b) c) (fun a => mul a (mul b c))); cbn beta.
  - intros a a' Ha Ha'. rewrite (mul_plus_l a a' b) by assumption. apply mul_plus_l; gf.
  - intros a a' Ha Ha'. apply mul_plus_l; gf.
  - rewrite (mul_zero_l b), (mul_zero_l c), (mul_zero_l (mul b c)) by gf. reflexivity.
  - intros x Hx. revert b Hb.
    apply (additive_ext (fun b => mul (mul (basis x) b) c)
                        (fun b => mul (basis x) (mul b c))); cbn beta.
    + intros b b' Hb Hb'. rewrite (mul_plus_r b b' (basis x)) by gf. apply mul_plus_l; gf.
    + intros b b' Hb Hb'. rewrite (mul_plus_l b b' c) by gf. apply mul_plus_r; gf.
    + rewrite (mul_zero_r (basis x)), (mul_zero_l c), (mul_zero_r (basis x)) by gf. reflexivity.
    + intros y Hy. revert c Hc.
      apply (additive_ext (fun c => mul (mul (basis x) (basis y)) c)
                          (fun c => mul (basis x) (mul (basis y) c))); cbn beta.
      * intros c c' Hc Hc'. apply mul_plus_r; gf.
      * intros c c' Hc Hc'. rewrite (mul_plus_r c c' (basis y)) by gf. apply mul_plus_r; gf.
      * rewrite (mul_zero_r (mul (basis x) (basis y))), (mul_zero_r (basis y)),
          (mul_zero_r (basis x)) by gf.
        reflexivity.
      * intros z Hz. now apply mul_basis_assoc.
Qed.

(** ** Squaring is multiplication by itself *)

Lemma mul_gamma_self r : mul (gamma r) (gamma r) = squareONB (gamma r).
Proof.
  rewrite (product_rule_all r r), sq_gamma.
  rewrite (gamma_zero (r - r)%Z)
    by (replace (r - r)%Z with 0%Z by lia; reflexivity).
  rewrite plus_zero_r by gf.
  apply gamma_congr. f_equal. lia.
Qed.

Lemma sq_is_mul a : wf a -> mul a a = squareONB a.
Proof.
  revert a. apply element_ind.
  - rewrite mul_zero_l, sq_zero by gf. reflexivity.
  - intros a x Ha Hx IH.
    destruct (basis_is_gamma x Hx) as [r ->].
    rewrite (mul_plus_l a (gamma r) (operator_plus a (gamma r))) by gf.
    rewrite (mul_plus_r a (gamma r) a), (mul_plus_r a (gamma r) (gamma r)) by gf.
    rewrite (mul_comm (gamma r) a) by gf.
    rewrite IH, mul_gamma_self, (sq_plus a (gamma r)) by gf.
    plus_ring.
Qed.

(** ** The all-true vector is the multiplicative identity *)

(** Every column but column 0 is marked an even number of times:
    [multiplyWithMatrix], run on the columns alone, leaves exactly the
    first coefficient set. *)
Lemma column_toggle :
  multiplyWithMatrix identity (map (fun e => (snd e, 0)) matrix)
  = coefficients (basis 0).
Proof. rewrite matrix_eq. vm_compute. reflexivity. Qed.

Lemma column_parity (g : nat -> bool) : xsum (fun e => g (snd e)) matrix = g 0.
Proof.
  pose proof (mwm_inner identity g (map (fun e => (snd e, 0)) matrix)
                (replicate m false) (length_replicate m false)) as H.
  rewrite <- multiplyWithMatrix_fold, column_toggle in H.
  rewrite xsum_map in H. cbn [fst snd] in H.
  rewrite (xsum_ext_in (fun i => g i && nth i (replicate m false) false)
             (fun _ => false)) in H
    by (intros i _; rewrite nth_replicate_same; apply andb_false_r).
  rewrite xsum_false, xorb_false_l in H.
  rewrite (xsum_ext_in (fun x => g (snd x) && coef identity (m - 1 - 0))
             (fun e => g (snd e))) in H.
  - rewrite <- H.
    + rewrite (xsum_ext_in _ (fun x => (x =? 0) && g x)).
      * apply xsum_single_m, m_pos.
      * intros i _. change (nth i (coefficients (basis 0)) false) with (coef (basis 0) i).
        rewrite coef_basis by apply m_pos. apply andb_comm.
    + apply List.Forall_forall. intros e He.
      destruct (proj1 (List.in_map_iff _ _ _) He) as (e' & <- & He'). cbn [fst].
      pose proof matrix_in_range as HM. unfold in_range in HM.
      rewrite List.Forall_forall in HM. now destruct (HM e' He').
  - intros e _. rewrite coef_identity by (pose proof m_pos; lia).
    apply andb_true_r.
Qed.

Lemma mul_identity_r a : wf a -> mul a identity = a.
Proof.
  intros Ha. pose proof m_pos as Hm.
  apply wf_ext; [gf | assumption |]. intros n Hn.
  rewrite coef_mul by gf.
  rewrite (xsum_ext_in _ (fun e => coef a ((n + (m - snd e)) mod m))).
  - rewrite (column_parity (fun j => coef a ((n + (m - j)) mod m))).
    rewrite Nat.sub_0_r. replace (n + m) with (n + 1 * m) by lia.
    rewrite Nat.Div0.mod_add, Nat.mod_small by assumption. reflexivity.
  - intros e _. unfold term. rewrite coef_identity by apply index_lt.
    apply andb_true_r.
Qed.

Lemma mul_identity_l a : wf a -> mul identity a = a.
Proof. intros Ha. rewrite mul_comm by gf. now apply mul_identity_r. Qed.

(** * Part VII: inversion *)

(** [k] squarings in a row, as in the inner loop of [inverse]. *)
Definition sq_iter (k : nat) (a : GF2mElement) : GF2mElement :=
  fold_left (fun beta _ => squareONB beta) (seq 0 k) a.

Lemma sq_iter_S k a : sq_iter (S k) a = squareONB (sq_iter k a).
Proof. unfold sq_iter. rewrite seq_S, fold_left_app. reflexivity. Qed.

Lemma sq_iter_0 a : sq_iter 0 a = a.
Proof. reflexivity. Qed.

Lemma wf_sq_iter k a : wf a -> wf (sq_iter k a).
Proof.
  intros Ha. destruct k as [| k]; [assumption |]. rewrite sq_iter_S. gf.
Qed.

#[local] Hint Resolve wf_sq_iter : gf.

Lemma coef_sq_iter k : forall a n, wf a -> n < m ->
  coef (sq_iter k a) n = coef a ((n + k) mod m).
Proof.
  pose proof m_pos as Hm.
  induction k as [| k IH]; intros a n Ha Hn.
  - rewrite sq_iter_0, Nat.add_0_r, Nat.mod_small by assumption. reflexivity.
  - rewrite sq_iter_S, coef_squareONB by gf.
    rewrite IH by (try assumption; apply index_lt).
    rewrite mod_shift by lia. f_equal. f_equal. lia.
Qed.

(** [m] squarings are the identity map: a^(2^m) = a. *)
Lemma sq_iter_m a : wf a -> sq_iter m a = a.
Proof.
  intros Ha. pose proof m_pos as Hm. apply wf_ext; [gf | assumption |].
  intros n Hn. rewrite coef_sq_iter by assumption.
  replace (n + m) with (n + 1 * m) by lia.
  rewrite Nat.Div0.mod_add, Nat.mod_small by assumption. reflexivity.
Qed.

Lemma sq_identity : squareONB identity = identity.
Proof.
  apply wf_ext; [gf | gf |]. intros n Hn.
  rewrite coef_squareONB by gf.
  rewrite !coef_identity by (try assumption; apply index_lt). reflexivity.
Qed.

(** [chain a k] is a^(2^k - 1), built as the program builds it when the
    current bit of [m_binary] is set. *)
Fixpoint chain (a : GF2mElement) (k : nat) : GF2mElement :=
  match k with
  | O => identity
  | S k' => mul (squareONB (chain a k')) a
  end.

Lemma chain_S a k : chain a (S k) = mul (squareONB (chain a k)) a.
Proof. reflexivity. Qed.

Lemma wf_chain a k : wf (chain a k).
Proof. destruct k; cbn [chain]; gf. Qed.

#[local] Hint Resolve wf_chain : gf.

Lemma chain_1 a : wf a -> chain a 1 = a.
Proof. intros Ha. cbn [chain]. rewrite sq_identity. now apply mul_identity_l. Qed.

(** The doubling step of the addition chain. *)
Lemma chain_add a j : wf a -> forall k,
  mul (sq_iter k (chain a j)) (chain a k) = chain a (j + k).
Proof.
  intros Ha. induction k as [| k IH].
  - rewrite sq_iter_0, Nat.add_0_r. cbn [chain]. apply mul_identity_r. gf.
  - rewrite sq_iter_S. cbn [chain].
    rewrite <- (mul_assoc (squareONB (sq_iter k (chain a j)))
                  (squareONB (chain a k)) a) by gf.
    rewrite <- (sq_mul (sq_iter k (chain a j)) (chain a k)) by gf.
    rewrite IH. replace (j + S k) with (S (j + k)) by lia. reflexivity.
Qed.

(** a^(2^k - 1) * a = a^(2^k). *)
Lemma chain_mul a : wf a -> forall k, mul (chain a k) a = sq_iter k a.
Proof.
  intros Ha. induction k as [| k IH].
  - cbn [chain]. rewrite sq_iter_0. now apply mul_identity_l.
  - cbn [chain]. rewrite sq_iter_S.
    rewrite (mul_assoc (squareONB (chain a k)) a a) by gf.
    rewrite (sq_is_mul a Ha).
    rewrite <- (sq_mul (chain a k) a) by gf.
    now rewrite IH.
Qed.

#[local] Opaque chain sq_iter.

(** ** The loop of [inverse] *)

Definition bit_of (i : nat) : nat :=
  if Ascii.eqb (nth i m_binary "000"%char) "1"%char then 1 else 0.

Lemma inv_step_chain a k i : wf a ->
  inv_step a (chain a k, k) i = (chain a (k * 2 + bit_of i), k * 2 + bit_of i).
Proof.
  intros Ha. unfold inv_step, bit_of.
  change (fold_left (fun beta _ => squareONB beta) (seq 0 k) (chain a k))
    with (sq_iter k (chain a k)).
  rewrite (chain_add a k Ha k).
  replace (k + k) with (k * 2) by lia.
  destruct (Ascii.eqb _ _).
  - replace (k * 2 + 1) with (S (k * 2)) by lia. reflexivity.
  - rewrite Nat.add_0_r. reflexivity.
Qed.

Lemma inv_fold_chain a idxs : wf a -> forall k,
  fold_left (inv_step a) idxs (chain a k, k)
  = (chain a (fold_left (fun k i => k * 2 + bit_of i) idxs k),
     fold_left (fun k i => k * 2 + bit_of i) idxs k).
Proof.
  intros Ha. induction idxs as [| i idxs IH]; intros k; cbn [fold_left].
  - reflexivity.
  - rewrite inv_step_chain by assumption. apply IH.
Qed.

(** [inverse] returns the square of a^(2^232 - 1), that is a^(2^233 - 2). *)
Lemma inv_chain a : wf a -> inv a = squareONB (chain a 232).
Proof.
  intros Ha. unfold inv.
  rewrite <- (chain_1 a Ha) at 2.
  rewrite (inv_fold_chain a (seq 1 7) Ha 1). cbn [fst].
  f_equal.
Qed.

(** ** a * inverse(a) = 1 *)

(** An element fixed by squaring is constant. *)
Lemma fixed_constant e : wf e -> squareONB e = e -> e = zero \/ e = identity.
Proof.
  intros He Hfix. pose proof m_pos as Hm.
  assert (Hc : forall n, n < m -> coef e n = coef e 0).
  { induction n as [| n IH]; intros Hn; [reflexivity |].
    rewrite <- IH by lia. rewrite <- Hfix at 2.
    rewrite coef_squareONB by (try assumption; lia).
    rewrite Nat.add_1_r, Nat.mod_small by assumption. reflexivity. }
  destruct (coef e 0) eqn:E0.
  - right. apply wf_ext; [assumption | gf |]. intros n Hn.
    now rewrite Hc, coef_identity.
  - left. apply wf_ext; [assumption | gf |]. intros n Hn.
    now rewrite Hc, coef_zero.
Qed.

Theorem mul_inv a : wf a -> a <> zero -> mul a (inv a) = identity.
Proof.
  intros Ha Hnz. rewrite (inv_chain a Ha).
  assert (Hc : wf (squareONB (chain a 232))) by gf.
  remember (squareONB (chain a 232)) as c eqn:Ec.
  assert (He : wf (mul a c)) by gf.
  assert (Hea : mul (mul a c) a = a).
  { rewrite (mul_comm a c) by assumption. subst c.
    rewrite <- (chain_S a 232), (chain_mul a Ha 233), <- m_val.
    now apply sq_iter_m. }
  remember (mul a c) as e eqn:Ee.
  assert (Hee : squareONB e = e).
  { rewrite <- (sq_is_mul e He). rewrite Ee at 2.
    rewrite <- (mul_assoc e a c) by assumption.
    rewrite Hea. symmetry. exact Ee. }
  destruct (fixed_constant e He Hee) as [E | E]; [| exact E].
  exfalso. apply Hnz. rewrite <- Hea, E. apply mul_zero_l. assumption.
Qed.

(** ** What [inverse] computes, as a power *)

(** a^n by repeated multiplication; never evaluated, only reasoned about. *)
Definition npow (a : GF2mElement) (n : N) : GF2mElement :=
  N.iter n (fun x => mul x a) identity.

Lemma npow_0 a : npow a 0 = identity.
Proof. reflexivity. Qed.

Lemma npow_succ a n : npow a (N.succ n) = mul (npow a n) a.
Proof. unfold npow. now rewrite N.iter_succ. Qed.

#[local] Opaque npow.

Lemma wf_npow a n : wf (npow a n).
Proof.
  destruct n as [| q] using N.peano_ind; [rewrite npow_0 | rewrite npow_succ]; gf.
Qed.

#[local] Hint Resolve wf_npow : gf.

Lemma npow_add a x y : wf a ->
  npow a (x + y) = mul (npow a x) (npow a y).
Proof.
  intros Ha. induction y as [| y IH] using N.peano_ind.
  - rewrite N.add_0_r, npow_0, mul_identity_r by gf. reflexivity.
  - rewrite N.add_succ_r, !npow_succ, IH.
    apply mul_assoc; gf.
Qed.

Lemma sq_npow a n : wf a -> squareONB (npow a n) = npow a (2 * n).
Proof.
  intros Ha. rewrite <- (sq_is_mul (npow a n)) by gf.
  rewrite <- npow_add by assumption. f_equal. lia.
Qed.

Lemma chain_npow a k : wf a -> chain a k = npow a (2 ^ N.of_nat k - 1).
Proof.
  intros Ha. induction k as [| k IH].
  - reflexivity.
  - rewrite chain_S, IH, sq_npow, <- npow_succ by assumption.
    f_equal. rewrite Nat2N.inj_succ, N.pow_succ_r'.
    assert (2 ^ N.of_nat k <> 0)%N by (apply N.pow_nonzero; lia).
    lia.
Qed.

(** [inverse] returns a^(2^233 - 2). *)
Lemma inv_npow a : wf a -> inv a = npow a (2 ^ 233 - 2).
Proof.
  intros Ha. rewrite inv_chain, chain_npow, sq_npow by assumption.
  f_equal.
Qed.

(** * Part VIII: the documented properties *)

(** The first operand of [main], as text and as an element. *)
Definition a_text : list ascii :=
  list_ascii_of_string
    "10111100000011111110110111100101101100100111011101101000001011110001001110001110110001011101100110100001001110101101011011100100000110011010111110010000001010100101111101010100000010011001001001110100110011101111100101011110010111010".

Definition a_main : GF2mElement := GF2mElement_of_string a_text.

Lemma wf_of_string s : wf (GF2mElement_of_string s).
Proof.
  apply wf_length.
  cbn [GF2mElement_of_string coefficients]. apply length_resize.
Qed.

(** ** C1: inverse round trip *)

(** C1.  For every nonzero field element [a], [inverse] returns
    a^(2^233 - 2), and multiplying [a] by that result with [operator*]
    yields the all-true vector, the multiplicative identity. *)
Theorem inverse_round_trip (a : GF2mElement) :
  wf a -> a <> zero ->
  runs (inverse a) (npow a (2 ^ 233 - 2)) /\
  runs (do ia <- inverse a; operator_star a ia) identity.
Proof.
  intros Ha Hnz. split.
  - rewrite <- (inv_npow a Ha). apply inverse_runs.
  - eapply runs_bind; [apply inverse_runs |].
    rewrite <- (mul_inv a Ha Hnz). apply operator_star_runs.
Qed.

Lemma a_main_nonzero : a_main <> zero.
Proof.
  intros H. apply (f_equal (fun e => nth 1 (coefficients e) false)) in H.
  vm_compute in H. discriminate.
Defined.

Lemma inverse_round_trip_witness :
  wf a_main /\ a_main <> zero /\
  (runs (inverse a_main) (npow a_main (2 ^ 233 - 2)) /\
   runs (do ia <- inverse a_main; operator_star a_main ia) identity).
Proof.
  refine (conj (wf_of_string _) (conj a_main_nonzero _)).
  apply (inverse_round_trip a_main); [apply wf_of_string | apply a_main_nonzero].
Defined.

(** ** C2: multiplicative identity *)

(** C2.  The identity is the vector of 233 true coefficients, and for
    every field element [a], [a * identity] is [a]. *)
Theorem multiplicative_identity (a : GF2mElement) :
  wf a ->
  coefficients identity = replicate 233 true /\
  runs (operator_star a identity) a.
Proof.
  intros Ha. split.
  - rewrite coefficients_identity, m_val. reflexivity.
  - rewrite <- (mul_identity_r a Ha) at 2. apply operator_star_runs.
Qed.

Lemma multiplicative_identity_witness :
  wf a_main /\
  (coefficients identity = replicate 233 true /\
   runs (operator_star a_main identity) a_main).
Proof.
  refine (conj (wf_of_string _) _).
  apply (multiplicative_identity a_main). apply wf_of_string.
Defined.

(** ** C10: squaring by rotation is multiplication by itself *)

(** C10.  For every field element [a], the general multiplication routine
    applied to two copies of [a] returns [squareONB a]. *)
Theorem square_is_product (a : GF2mElement) :
  wf a -> runs (operator_star a a) (squareONB a).
Proof. intros Ha. rewrite <- (sq_is_mul a Ha). apply operator_star_runs. Qed.

Lemma square_is_product_witness :
  wf a_main /\ runs (operator_star a_main a_main) (squareONB a_main).
Proof.
  refine (conj (wf_of_string _) _).
  apply (square_is_product a_main). apply wf_of_string.
Defined.

(** ** C9: the two rotations *)

(** The element written "1": only coefficient 0 is set. *)
Definition e_first : GF2mElement := GF2mElement_of_string (list_ascii_of_string "1").

(** C9, as stated, fails: on the element "1", [squareONB] sets
    coefficient 232 while [cyclicLeftShift] by one sets coefficient 1. *)
Lemma square_is_not_shift_by_one : squareONB e_first <> cyclicLeftShift e_first 1.
Proof.
  intros H. apply (f_equal (fun e => nth 1 (coefficients e) false)) in H.
  vm_compute in H. discriminate.
Qed.

(** C9, amended.  [squareONB] is the cyclic shift by [m - 1 = 232]
    positions, the inverse rotation of the shift by one: each undoes the
    other. *)
Theorem square_is_inverse_shift (a : GF2mElement) :
  wf a ->
  squareONB a = cyclicLeftShift a 232 /\
  squareONB (cyclicLeftShift a 1) = a /\
  cyclicLeftShift (squareONB a) 1 = a.
Proof.
  intros Ha. pose proof m_pos as Hm. pose proof m_val as Hv.
  assert (E1 : 1 mod m = 1) by (apply Nat.mod_small; lia).
  assert (E232 : 232 mod m = 232) by (apply Nat.mod_small; lia).
  split; [| split].
  - apply wf_ext; [gf | gf |]. intros n Hn.
    rewrite coef_squareONB, coef_cyclicLeftShift, E232 by assumption.
    replace (m - 232) with 1 by lia. reflexivity.
  - apply wf_ext; [gf | assumption |]. intros n Hn.
    rewrite coef_squareONB by gf.
    rewrite coef_cyclicLeftShift, E1 by (try assumption; apply index_lt).
    rewrite mod_shift by lia.
    replace (n + 1 + (m - 1)) with (n + 1 * m) by lia.
    rewrite Nat.Div0.mod_add, Nat.mod_small by assumption. reflexivity.
  - apply wf_ext; [gf | assumption |]. intros n Hn.
    rewrite coef_cyclicLeftShift, E1 by gf.
    rewrite coef_squareONB by (try assumption; apply index_lt).
    rewrite mod_shift by lia.
    replace (n + (m - 1) + 1) with (n + 1 * m) by lia.
    rewrite Nat.Div0.mod_add, Nat.mod_small by assumption. reflexivity.
Qed.

Lemma square_is_inverse_shift_witness :
  wf a_main /\
  (squareONB a_main = cyclicLeftShift a_main 232 /\
   squareONB (cyclicLeftShift a_main 1) = a_main /\
   cyclicLeftShift (squareONB a_main) 1 = a_main).
Proof.
  refine (conj (wf_of_string _) _).
  apply (square_is_inverse_shift a_main). apply wf_of_string.
Defined.

(** ** C7: inverting zero *)

Lemma chain_zero k : chain zero (S k) = zero.
Proof. rewrite chain_S. apply mul_zero_r. gf. Qed.

Lemma inv_zero : inv zero = zero.
Proof. rewrite inv_chain by gf. rewrite chain_zero. apply sq_zero. Qed.

(** C7, as stated, fails: [inverse] performs no check; started from the
    empty cache on the zero element it returns a value, the zero element. *)
Lemma inverse_zero_returns : fst (inverse zero ∅) = zero.
Proof.
  rewrite (runs_fst (inverse zero) (inv zero) ∅ (inverse_runs zero) cache_ok_empty).
  apply inv_zero.
Qed.

(** C7, amended.  [inverse] runs the addition chain on the zero element
    like on any other and returns the zero element. *)
Theorem inverse_of_zero : runs (inverse zero) zero.
Proof. rewrite <- inv_zero at 2. apply inverse_runs. Qed.

(** ** The string constructor and the serializer *)

Lemma map_nth_all {A B} (g : A -> B) (l : list A) (d : A) :
  map (fun i => g (nth i l d)) (seq 0 (length l)) = map g l.
Proof.
  apply (nth_ext _ _ (g d) (g d)).
  - now rewrite !length_map, length_seq.
  - intros n Hn. rewrite length_map, length_seq in Hn.
    rewrite (nth_indep _ (g d) (g (nth 0 l d)))
      by (now rewrite length_map, length_seq).
    rewrite (map_nth (fun i => g (nth i l d))), seq_nth by assumption.
    cbn [Nat.add]. symmetry. apply (map_nth g).
Qed.

Definition is_one (c : ascii) : bool := Ascii.eqb c "1"%char.

(** The constructor reads the text from its right end, maps every
    character to "is it '1'?", and cuts or pads to [m] coefficients. *)
Lemma coefficients_of_string s :
  coefficients (GF2mElement_of_string s) = resize m false (rev (map is_one s)).
Proof.
  cbn [GF2mElement_of_string coefficients]. f_equal.
  rewrite (push_back_map (fun i => Ascii.eqb (nth i s "000"%char) "1"%char)).
  cbn [app]. rewrite map_rev. f_equal.
  apply (map_nth_all is_one).
Qed.

Lemma nth_resize (l : list bool) k n :
  n < k -> nth n (resize k false l) false = nth n l false.
Proof.
  intros Hn. rewrite !nth_lookup.
  destruct (Nat.lt_ge_cases n (length l)) as [H | H].
  - now rewrite lookup_resize.
  - rewrite lookup_resize_new by assumption.
    rewrite (proj2 (lookup_ge_None l n)) by assumption. reflexivity.
Qed.

(** The serializer prints coefficient [m - 1] first. *)
Lemma operator_out_rev a : wf a ->
  operator_out a = rev (map bit_char (coefficients a)).
Proof.
  intros Ha. unfold operator_out.
  rewrite (push_back_map (fun i => bit_char (nth i (coefficients a) false))).
  cbn [app]. rewrite map_rev. f_equal.
  apply wf_length in Ha.
  rewrite <- Ha. apply (map_nth_all bit_char).
Qed.

(** ** C8: serialization round trip *)

Lemma bit_char_is_one_inv c :
  c = "0"%char \/ c = "1"%char -> bit_char (is_one c) = c.
Proof. intros [-> | ->]; reflexivity. Qed.

(** C8.  For every text of exactly 233 characters '0'/'1', printing the
    element built from it gives the text back, character for character. *)
Theorem serialization_round_trip (s : list ascii) :
  length s = 233 ->
  Forall (fun c => c = "0"%char \/ c = "1"%char) s ->
  operator_out (GF2mElement_of_string s) = s.
Proof.
  intros Hlen Hbits.
  rewrite operator_out_rev by apply wf_of_string.
  rewrite coefficients_of_string.
  rewrite resize_all_alt by (rewrite length_rev, length_map, m_val; congruence).
  rewrite <- map_rev, rev_involutive, map_map.
  rewrite <- (map_id s) at 2. apply map_ext_in.
  intros c Hc. apply bit_char_is_one_inv.
  rewrite List.Forall_forall in Hbits. now apply Hbits.
Qed.

Lemma bits_of_forallb (s : list ascii) :
  forallb (fun c => Ascii.eqb c "0" || Ascii.eqb c "1") s = true ->
  Forall (fun c => c = "0"%char \/ c = "1"%char) s.
Proof.
  intros H. apply List.Forall_forall. intros c Hc.
  rewrite forallb_forall in H. specialize (H c Hc).
  apply orb_true_iff in H. destruct H as [H | H]; apply Ascii.eqb_eq in H; auto.
Qed.

Lemma serialization_round_trip_witness :
  length a_text = 233 /\
  Forall (fun c => c = "0"%char \/ c = "1"%char) a_text /\
  operator_out (GF2mElement_of_string a_text) = a_text.
Proof.
  assert (H1 : length a_text = 233) by (vm_compute; reflexivity).
  assert (H2 : Forall (fun c => c = "0"%char \/ c = "1"%char) a_text)
    by (apply bits_of_forallb; vm_compute; reflexivity).
  exact (conj H1 (conj H2 (serialization_round_trip a_text H1 H2))).
Defined.

(** ** C6: malformed text *)

(** C6, as stated, fails: the constructor validates nothing.  A character
    that is not '1' is read as a zero bit, and of a text longer than [m]
    only the last [m] characters are kept. *)
Lemma constructor_accepts_malformed :
  GF2mElement_of_string (list_ascii_of_string "1x")
  = GF2mElement_of_string (list_ascii_of_string "10")
  /\ GF2mElement_of_string ("1"%char :: a_text) = GF2mElement_of_string a_text.
Proof. split; apply element_eq; vm_compute; reflexivity. Qed.

(** C6, amended.  The constructor is total: for any text it returns a
    well-formed element whose coefficient [n] is set exactly when the
    text has a character at distance [n] from its right end and that
    character is '1'. *)
Theorem constructor_total (s : list ascii) :
  wf (GF2mElement_of_string s) /\
  forall n, n < m ->
    coef (GF2mElement_of_string s) n
    = (n <? length s) && is_one (nth (length s - 1 - n) s "0"%char).
Proof.
  split; [apply wf_of_string |]. intros n Hn. rewrite coef_nth.
  rewrite coefficients_of_string, nth_resize by assumption.
  destruct (Nat.ltb_spec n (length s)) as [H | H].
  - rewrite rev_nth by (now rewrite length_map).
    rewrite length_map. cbn [andb].
    replace (length s - S n) with (length s - 1 - n) by lia.
    change false with (is_one "0"%char). apply map_nth.
  - apply nth_overflow. now rewrite length_rev, length_map.
Qed.

(** ** C3: how the round outputs are read back *)

Lemma multiplyAndShift_runs a b steps :
  runs (multiplyAndShift a b steps) (shift_rounds matrix steps a b []).
Proof.
  unfold multiplyAndShift.
  eapply runs_bind; [apply createMultiplicativeMatrix_runs | apply runs_ret].
Qed.

Lemma bit_char_is_one_eq b : is_one (bit_char b) = b.
Proof. now destruct b. Qed.

Lemma nth_bit_chars (bits : list bool) k :
  is_one (nth k (map bit_char bits) "0"%char) = nth k bits false.
Proof.
  change "0"%char with (bit_char false). rewrite map_nth.
  apply bit_char_is_one_eq.
Qed.

(** Coefficient [n] of [operator*] is the output of round [m - 1 - n]. *)
Lemma coef_read_back M a b n : n < m ->
  coef (read_back (shift_rounds M 233 a b [])) n
  = is_one (nth (232 - n) (shift_rounds M 233 a b []) "0"%char).
Proof.
  intros Hn. pose proof m_val as Hv.
  rewrite shift_rounds_map. cbn [app].
  rewrite <- (map_map (fun k => round_bit M (shifted k a) (shifted k b)) bit_char).
  set (bits := map (fun k => round_bit M (shifted k a) (shifted k b)) (seq 0 233)).
  assert (Hlen : length bits = 233)
    by (unfold bits; now rewrite length_map, length_seq).
  rewrite nth_bit_chars, coef_nth.
  rewrite read_back_bits by congruence.
  rewrite rev_nth, Hlen by lia.
  replace (233 - S n) with (232 - n) by lia. reflexivity.
Qed.

(** C3, as stated, fails: for the element "1" multiplied by itself the
    first round outputs 1, yet coefficient 0 of the product is 0. *)
Lemma first_round_is_not_coefficient_0 :
  coef (fst (operator_star e_first e_first ∅)) 0
  <> is_one (nth 0 (fst (multiplyAndShift e_first e_first 233 ∅)) "0"%char).
Proof.
  rewrite (runs_fst _ _ ∅ (operator_star_runs e_first e_first) cache_ok_empty).
  rewrite (runs_fst _ _ ∅ (multiplyAndShift_runs e_first e_first 233) cache_ok_empty).
  rewrite (sq_is_mul e_first (wf_of_string _)).
  rewrite shift_rounds_map. cbn [app].
  change 233 with (S 232). cbn [seq map nth shifted].
  rewrite bit_char_is_one_eq.
  rewrite matrix_eq.
  vm_compute. discriminate.
Qed.

(** C3, amended.  The product is read back from the round outputs in
    reverse: round [k] supplies coefficient [232 - k], so the first
    round's bit is the most significant coefficient (index 232) and the
    last round's bit is coefficient 0. *)
Theorem rounds_read_back_reversed (a b : GF2mElement) (c : gmap nat Z) (n : nat) :
  cache_ok c -> n < 233 ->
  coef (fst (operator_star a b c)) n
  = is_one (nth (232 - n) (fst (multiplyAndShift a b 233 c)) "0"%char).
Proof.
  intros Hc Hn.
  rewrite (runs_fst _ _ c (operator_star_runs a b) Hc).
  rewrite (runs_fst _ _ c (multiplyAndShift_runs a b 233) Hc).
  rewrite mul_unfold, mul_with_unfold.
  apply coef_read_back. rewrite m_val. exact Hn.
Qed.

Lemma rounds_read_back_reversed_witness :
  cache_ok ∅ /\ 0 < 233 /\
  coef (fst (operator_star a_main a_main ∅)) 0
  = is_one (nth (232 - 0) (fst (multiplyAndShift a_main a_main 233 ∅)) "0"%char).
Proof.
  assert (H : 0 < 233) by lia.
  exact (conj cache_ok_empty
           (conj H (rounds_read_back_reversed a_main a_main ∅ 0 cache_ok_empty H))).
Defined.

(** ** C4: the entry criterion *)

Local Open Scope Z_scope.

(** The four signed combinations of [u] and [v]. *)
Definition combos (u v : Z) : list Z := [u + v; u - v; - u + v; - u - v].

(** "Congruent modulo [p] to 1 or to [p - 1]". *)
Definition unit_residue (w : Z) : bool := (w mod p =? 1) || (w mod p =? p - 1).

Lemma entry_of_value u v : entry_of u v = if entry_of u v =? 1 then 1 else 0.
Proof. unfold entry_of. now destruct (existsb _ _). Qed.

(** On a combination [w] of two residues, congruence to [r] modulo 467
    leaves four candidates. *)
Lemma residue_cases (w r : Z) :
  - 934 < w < 934 -> 0 <= r < 467 ->
  w mod 467 = r <-> (w = r \/ w = r + 467 \/ w = r - 467 \/ w = r - 934).
Proof.
  intros Hw Hr.
  pose proof (Z.mod_pos_bound w 467 ltac:(lia)).
  pose proof (Z.div_mod w 467 ltac:(lia)).
  split.
  - intros E. lia.
  - intros [-> | [-> | [-> | ->]]].
    + apply Z.mod_small. lia.
    + replace (r + 467) with (r + 1 * 467) by lia.
      rewrite Z_mod_plus_full. apply Z.mod_small. lia.
    + replace (r - 467) with (r + -1 * 467) by lia.
      rewrite Z_mod_plus_full. apply Z.mod_small. lia.
    + replace (r - 934) with (r + -2 * 467) by lia.
      rewrite Z_mod_plus_full. apply Z.mod_small. lia.
Qed.

Section Criterion.
Variables u v : Z.
Hypothesis Hu : 0 < u < 467.
Hypothesis Hv : 0 < v < 467.

Lemma sum_is_1 : ((u + v) mod 467 =? 1) = (u + v =? 468).
Proof.
  destruct (Z.eqb_spec ((u + v) mod 467) 1) as [E | E];
    destruct (Z.eqb_spec (u + v) 468) as [F | F]; try reflexivity; exfalso.
  - apply residue_cases in E; lia.
  - apply E. apply residue_cases; lia.
Qed.

Lemma sum_is_466 : ((u + v) mod 467 =? 466) = (u + v =? 466).
Proof.
  destruct (Z.eqb_spec ((u + v) mod 467) 466) as [E | E];
    destruct (Z.eqb_spec (u + v) 466) as [F | F]; try reflexivity; exfalso.
  - apply residue_cases in E; lia.
  - apply E. apply residue_cases; lia.
Qed.

Lemma diff_is_1 : ((u - v) mod 467 =? 1) = (u - v =? 1).
Proof.
  destruct (Z.eqb_spec ((u - v) mod 467) 1) as [E | E];
    destruct (Z.eqb_spec (u - v) 1) as [F | F]; try reflexivity; exfalso.
  - apply residue_cases in E; lia.
  - apply E. apply residue_cases; lia.
Qed.

Lemma diff_is_466 : ((u - v) mod 467 =? 466) = (v - u =? 1).
Proof.
  destruct (Z.eqb_spec ((u - v) mod 467) 466) as [E | E];
    destruct (Z.eqb_spec (v - u) 1) as [F | F]; try reflexivity; exfalso.
  - apply residue_cases in E; lia.
  - apply E. apply residue_cases; lia.
Qed.

Lemma neg_sum_is_1 : ((- u - v) mod 467 =? 1) = (u + v =? 466).
Proof.
  destruct (Z.eqb_spec ((- u - v) mod 467) 1) as [E | E];
    destruct (Z.eqb_spec (u + v) 466) as [F | F]; try reflexivity; exfalso.
  - apply residue_cases in E; lia.
  - apply E. apply residue_cases; lia.
Qed.

Lemma neg_sum_is_466 : ((- u - v) mod 467 =? 466) = (u + v =? 468).
Proof.
  destruct (Z.eqb_spec ((- u - v) mod 467) 466) as [E | E];
    destruct (Z.eqb_spec (u + v) 468) as [F | F]; try reflexivity; exfalso.
  - apply residue_cases in E; lia.
  - apply E. apply residue_cases; lia.
Qed.
End Criterion.

Lemma criterion_fast u v : 0 < u < p -> 0 < v < p ->
  existsb unit_residue (combos u v) = entry_fast u v.
Proof.
  rewrite p_val. intros Hu Hv.
  unfold combos, unit_residue, entry_fast. rewrite p_val. cbn [existsb].
  change (467 - 1) with 466.
  replace (- u + v) with (v - u) by lia.
  rewrite (sum_is_1 u v Hu Hv), (sum_is_466 u v Hu Hv).
  rewrite (diff_is_1 u v Hu Hv), (diff_is_466 u v Hu Hv).
  rewrite (diff_is_1 v u Hv Hu), (diff_is_466 v u Hv Hu).
  rewrite (neg_sum_is_1 u v Hu Hv), (neg_sum_is_466 u v Hu Hv).
  destruct (u + v =? 468), (u + v =? 466), (u - v =? 1), (v - u =? 1); reflexivity.
Qed.

(** C4.  For i, j in 0..232, with u = 2^i mod 467 and v = 2^j mod 467,
    [compute_matrix_element i j] returns 1 exactly when one of u+v, u-v,
    -u+v, -u-v is congruent modulo 467 to 1 or to 466, and 0 otherwise. *)
Theorem matrix_entry_criterion (i j : nat) :
  (i < m)%nat -> (j < m)%nat ->
  let u := 2 ^ Z.of_nat i mod 467 in
  let v := 2 ^ Z.of_nat j mod 467 in
  runs (compute_matrix_element i j)
       (if existsb unit_residue (combos u v) then 1 else 0).
Proof.
  intros _ _ u v.
  assert (Eu : u = pow2 i) by (unfold u; now rewrite pow2_spec).
  assert (Ev : v = pow2 j) by (unfold v; now rewrite pow2_spec).
  rewrite Eu, Ev, criterion_fast by apply pow2_range.
  rewrite <- entry_of_fast by apply pow2_range.
  rewrite <- entry_of_value.
  apply compute_matrix_element_runs.
Qed.

Lemma matrix_entry_criterion_witness :
  (0 < m)%nat /\ (1 < m)%nat /\
  runs (compute_matrix_element 0 1)
       (if existsb unit_residue (combos (2 ^ Z.of_nat 0 mod 467) (2 ^ Z.of_nat 1 mod 467))
        then 1 else 0).
Proof.
  assert (H0 : (0 < m)%nat) by (vm_compute; lia).
  assert (H1 : (1 < m)%nat) by (vm_compute; lia).
  exact (conj H0 (conj H1 (matrix_entry_criterion 0 1 H0 H1))).
Defined.

(** The comparison with -466 in the source never succeeds: on residues
    in (0, p) no entry of [results] is negative enough. *)
Lemma minus_466_never u v : 0 < u < p -> 0 < v < p ->
  Forall (fun result => result <> -466) (results_of u v p).
Proof.
  rewrite p_val. intros Hu Hv. unfold results_of.
  rewrite (Z.rem_mod_nonneg (u + v)), (Z.rem_mod_nonneg (u - v + 467)),
    (Z.rem_mod_nonneg (- u + v + 467)) by lia.
  pose proof (Z.mod_pos_bound (u + v) 467 ltac:(lia)).
  pose proof (Z.mod_pos_bound (u - v + 467) 467 ltac:(lia)).
  pose proof (Z.mod_pos_bound (- u + v + 467) 467 ltac:(lia)).
  assert (Hfourth : Z.rem (- u - v + 467) 467 = - u - v + 467).
  { destruct (Z_le_gt_dec 0 (- u - v + 467)).
    - rewrite Z.rem_small; lia.
    - replace (- u - v + 467) with (- (u + v - 467)) by lia.
      rewrite Z.rem_opp_l by lia. rewrite Z.rem_small; lia. }
  rewrite Hfourth.
  repeat (apply List.Forall_cons; [lia |]). apply List.Forall_nil.
Qed.

(** ** C5: marked entries per row *)

Local Open Scope nat_scope.

(** The number of marked positions in row [i]. *)
Definition count_row (i : nat) (M : list (nat * nat)) : nat :=
  length (List.filter (fun e => fst e =? i) M).

(** The columns of [cols] at which [compute_matrix_element i] returns 1. *)
Definition matches (i : nat) (cols : list nat) : list nat :=
  List.filter (fun j => (matrix_entry i j =? 1)%Z) cols.

Lemma row_of_spec i js : forall prevVal ops, prevVal < 2 ->
  row_of i js prevVal ops
  = ops ++ map (pair i) (firstn (2 - prevVal) (matches i js)).
Proof.
  induction js as [| j js IH]; intros prevVal ops Hp; cbn [row_of matches List.filter].
  - rewrite firstn_nil. cbn [map]. now rewrite app_nil_r.
  - fold (matches i js). destruct (matrix_entry i j =? 1)%Z.
    + destruct prevVal as [| [| prevVal]]; [| | lia].
      * cbn [Nat.eqb Nat.sub firstn map].
        rewrite IH by lia. rewrite <- app_assoc. reflexivity.
      * cbn [Nat.eqb Nat.sub firstn map]. reflexivity.
    + now apply IH.
Qed.

Lemma rows_of_spec cols rows : forall ops,
  rows_of rows cols ops
  = ops ++ flat_map (fun i => map (pair i) (firstn 2 (matches i cols))) rows.
Proof.
  induction rows as [| i rows IH]; intros ops; cbn [rows_of flat_map].
  - now rewrite app_nil_r.
  - rewrite IH, row_of_spec by lia. rewrite <- app_assoc. reflexivity.
Qed.

(** The matrix, row by row: the first two matching columns of each row. *)
Lemma matrix_by_rows :
  matrix = flat_map (fun i => map (pair i) (firstn 2 (matches i (seq 0 m)))) (seq 0 m).
Proof.
  rewrite matrix_unfold, rows_of_spec. reflexivity.
Qed.

Lemma filter_block i i' (l : list nat) :
  List.filter (fun e => fst e =? i) (map (pair i') l)
  = if i' =? i then map (pair i') l else [].
Proof.
  induction l as [| x l IH]; cbn [map List.filter fst].
  - now destruct (i' =? i).
  - rewrite IH. now destruct (i' =? i).
Qed.

Lemma filter_rows i (f : nat -> list nat) k : forall s,
  List.filter (fun e => fst e =? i) (flat_map (fun i' => map (pair i') (f i')) (seq s k))
  = if (s <=? i) && (i <? s + k) then map (pair i) (f i) else [].
Proof.
  induction k as [| k IH]; intros s; cbn [seq flat_map].
  - destruct (Nat.leb_spec s i), (Nat.ltb_spec i (s + 0)); try reflexivity; lia.
  - rewrite List.filter_app, filter_block, IH.
    destruct (Nat.eqb_spec s i) as [-> | Hne].
    + destruct (Nat.leb_spec (S i) i); [lia |].
      destruct (Nat.leb_spec i i); [| lia].
      destruct (Nat.ltb_spec i (i + S k)); [| lia].
      cbn [andb]. now rewrite app_nil_r.
    + destruct (Nat.leb_spec (S s) i), (Nat.leb_spec s i);
        destruct (Nat.ltb_spec i (S s + k)), (Nat.ltb_spec i (s + S k));
        try lia; reflexivity.
Qed.

Lemma matrix_row i : i < m ->
  List.filter (fun e => fst e =? i) matrix
  = map (pair i) (firstn 2 (matches i (seq 0 m))).
Proof.
  intros Hi. rewrite matrix_by_rows.
  rewrite (filter_rows i (fun i' => firstn 2 (matches i' (seq 0 m)))).
  destruct (Nat.leb_spec 0 i); [| lia].
  destruct (Nat.ltb_spec i (0 + m)); [reflexivity | lia].
Qed.

Lemma row_counts :
  forallb (fun i => count_row i matrix_value =? (if i =? 0 then 1 else 2))
    (seq 0 m) = true.
Proof. vm_compute. reflexivity. Qed.

Lemma count_row_matrix i : i < m ->
  count_row i matrix = if i =? 0 then 1 else 2.
Proof.
  intros Hi. rewrite matrix_eq.
  pose proof row_counts as H. rewrite forallb_forall in H.
  apply Nat.eqb_eq. apply H. apply in_seq. lia.
Qed.

(** C5, as stated, fails: row 0 contributes one marked entry, not two. *)
Lemma row_0_has_one_entry :
  count_row 0 (fst (createMultiplicativeMatrix ∅)) <> 2.
Proof.
  rewrite (runs_fst _ _ ∅ createMultiplicativeMatrix_runs cache_ok_empty).
  rewrite (count_row_matrix 0 m_pos). cbn. lia.
Qed.

(** C5, amended.  The scan of each row keeps the first two matching
    columns and stops; rows 1..232 contribute exactly two marked entries
    and row 0 exactly one. *)
Theorem marked_entries_per_row (c : gmap nat Z) (i : nat) :
  cache_ok c -> i < m ->
  List.filter (fun e => fst e =? i) (fst (createMultiplicativeMatrix c))
  = map (pair i) (firstn 2 (matches i (seq 0 m)))
  /\ count_row i (fst (createMultiplicativeMatrix c)) = (if i =? 0 then 1 else 2).
Proof.
  intros Hc Hi.
  rewrite (runs_fst _ _ c createMultiplicativeMatrix_runs Hc).
  split; [now apply matrix_row | now apply count_row_matrix].
Qed.

Lemma marked_entries_per_row_witness :
  cache_ok ∅ /\ 5 < m /\
  (List.filter (fun e => fst e =? 5) (fst (createMultiplicativeMatrix ∅))
   = map (pair 5) (firstn 2 (matches 5 (seq 0 m)))
   /\ count_row 5 (fst (createMultiplicativeMatrix ∅)) = (if 5 =? 0 then 1 else 2)).
Proof.
  assert (H : 5 < m) by (vm_compute; lia).
  exact (conj cache_ok_empty
           (conj H (marked_entries_per_row ∅ 5 cache_ok_empty H))).
Defined.

(** * Part IX: further properties of the code *)

(** The second operand of [main]. *)
Definition b_text : list ascii :=
  list_ascii_of_string
    "10010100100111000111100100011001111101000111000010110011001110000101100000111110101110000100000001101110110001110001100101000111011010110111001101110111001000000101100101110011000001011010010101110111100111001010001000001111010001010".

Definition b_main : GF2mElement := GF2mElement_of_string b_text.

(** Two computations that return the same value from every consistent
    cache. *)
Definition agree {A} (x y : St A) : Prop := exists v, runs x v /\ runs y v.

(** ** The field structure of [operator+] and [operator*] *)



(** X2.  [operator*] is associative: (a * b) * c and a * (b * c) return
    the same element. *)
Theorem star_associative (a b c : GF2mElement) :
  wf a -> wf b -> wf c ->
  agree (do ab <- operator_star a b; operator_star ab c)
        (do bc <- operator_star b c; operator_star a bc).
Proof.
  intros Ha Hb Hc. exists (mul (mul a b) c). split.
  - eapply runs_bind; apply operator_star_runs.
  - rewrite (mul_assoc a b c Ha Hb Hc).
    eapply runs_bind; apply operator_star_runs.
Qed.

Lemma star_associative_witness :
  wf a_main /\ wf b_main /\ wf e_first /\
  agree (do ab <- operator_star a_main b_main; operator_star ab e_first)
        (do bc <- operator_star b_main e_first; operator_star a_main bc).
Proof.
  exact (conj (wf_of_string _) (conj (wf_of_string _) (conj (wf_of_string _)
           (star_associative a_main b_main e_first
              (wf_of_string _) (wf_of_string _) (wf_of_string _))))).
Defined.

(** X3.  [operator*] distributes over [operator+]:
    a * (b + c) = a * b + a * c. *)
Theorem star_distributes (a b c : GF2mElement) :
  wf a -> wf b -> wf c ->
  agree (operator_star a (operator_plus b c))
        (do ab <- operator_star a b;
         do ac <- operator_star a c;
         ret (operator_plus ab ac)).
Proof.
  intros Ha Hb Hc. exists (mul a (operator_plus b c)). split.
  - apply operator_star_runs.
  - rewrite (mul_plus_r b c a Hb Hc Ha).
    eapply runs_bind; [apply operator_star_runs |].
    eapply runs_bind; [apply operator_star_runs | apply runs_ret].
Qed.

Lemma star_distributes_witness :
  wf a_main /\ wf b_main /\ wf e_first /\
  agree (operator_star a_main (operator_plus b_main e_first))
        (do ab <- operator_star a_main b_main;
         do ac <- operator_star a_main e_first;
         ret (operator_plus ab ac)).
Proof.
  exact (conj (wf_of_string _) (conj (wf_of_string _) (conj (wf_of_string _)
           (star_distributes a_main b_main e_first
              (wf_of_string _) (wf_of_string _) (wf_of_string _))))).
Defined.

Lemma identity_nonzero : identity <> zero.
Proof.
  intros H. apply (f_equal (fun e => coef e 0)) in H.
  rewrite coef_identity, coef_zero in H by apply m_pos. discriminate.
Qed.

Lemma classic_eq_zero a : a = zero \/ a <> zero.
Proof.
  destruct (decide (coefficients a = coefficients zero)) as [E | E].
  - left. now apply element_eq.
  - right. intros ->. now apply E.
Qed.

Lemma mul_cancel_zero a b : wf a -> wf b -> mul a b = zero -> a = zero \/ b = zero.
Proof.
  intros Ha Hb H.
  destruct (classic_eq_zero a) as [E | E]; [now left | right].
  rewrite <- (mul_identity_l b Hb), <- (mul_inv a Ha E).
  rewrite (mul_comm a (inv a)) by (try assumption; rewrite inv_chain by assumption; gf).
  rewrite (mul_assoc (inv a) a b) by (try assumption; rewrite inv_chain by assumption; gf).
  rewrite H. apply mul_zero_r. rewrite inv_chain by assumption. gf.
Qed.

(** X4.  Zero annihilates, and there are no zero divisors: a product is
    the zero element exactly when one of the factors is. *)
Theorem star_zero_iff (a b : GF2mElement) :
  wf a -> wf b ->
  (runs (operator_star a b) zero <-> a = zero \/ b = zero).
Proof.
  intros Ha Hb. split.
  - intros H. apply mul_cancel_zero; try assumption.
    destruct (H ∅ cache_ok_empty) as (c' & E & _).
    pose proof (runs_fst _ _ ∅ (operator_star_runs a b) cache_ok_empty) as E'.
    rewrite E in E'. cbn [fst] in E'. now symmetry.
  - intros [-> | ->].
    + rewrite <- (mul_zero_l b Hb) at 2. apply operator_star_runs.
    + rewrite <- (mul_zero_r a Ha) at 2. apply operator_star_runs.
Qed.

Lemma star_zero_iff_witness :
  wf a_main /\ wf b_main /\
  (runs (operator_star a_main b_main) zero <-> a_main = zero \/ b_main = zero).
Proof.
  exact (conj (wf_of_string _) (conj (wf_of_string _)
           (star_zero_iff a_main b_main (wf_of_string _) (wf_of_string _)))).
Defined.

(** ** Inversion *)

Lemma wf_inv a : wf (inv a).
Proof. unfold inv. gf. Qed.

#[local] Hint Resolve wf_inv : gf.

Lemma inv_nonzero a : wf a -> a <> zero -> inv a <> zero.
Proof.
  intros Ha Hnz E. apply identity_nonzero.
  rewrite <- (mul_inv a Ha Hnz), E. apply mul_zero_r. assumption.
Qed.

Lemma inv_inv a : wf a -> a <> zero -> inv (inv a) = a.
Proof.
  intros Ha Hnz.
  pose proof (mul_inv (inv a) (wf_inv a) (inv_nonzero a Ha Hnz)) as H.
  rewrite <- (mul_identity_l (inv (inv a))) by gf.
  rewrite <- (mul_inv a Ha Hnz).
  rewrite (mul_assoc a (inv a) (inv (inv a))) by gf.
  rewrite H. now apply mul_identity_r.
Qed.

(** X5.  Inversion is an involution on nonzero elements:
    inverse(inverse(a)) = a. *)
Theorem inverse_involution (a : GF2mElement) :
  wf a -> a <> zero ->
  runs (do ia <- inverse a; inverse ia) a.
Proof.
  intros Ha Hnz. eapply runs_bind; [apply inverse_runs |].
  rewrite <- (inv_inv a Ha Hnz) at 2. apply inverse_runs.
Qed.

Lemma inverse_involution_witness :
  wf a_main /\ a_main <> zero /\ runs (do ia <- inverse a_main; inverse ia) a_main.
Proof.
  exact (conj (wf_of_string _) (conj a_main_nonzero
           (inverse_involution a_main (wf_of_string _) a_main_nonzero))).
Defined.

Lemma mul_swap4 a b c d : wf a -> wf b -> wf c -> wf d ->
  mul (mul a b) (mul c d) = mul (mul a c) (mul b d).
Proof.
  intros Ha Hb Hc Hd.
  rewrite (mul_assoc a b (mul c d)) by gf.
  rewrite <- (mul_assoc b c d) by gf.
  rewrite (mul_comm b c) by gf.
  rewrite (mul_assoc c b d) by gf.
  rewrite <- (mul_assoc a c (mul b d)) by gf.
  reflexivity.
Qed.

Lemma npow_mul a b n : wf a -> wf b ->
  npow (mul a b) n = mul (npow a n) (npow b n).
Proof.
  intros Ha Hb. induction n as [| n IH] using N.peano_ind.
  - rewrite !npow_0, mul_identity_l by gf. reflexivity.
  - rewrite !npow_succ, IH. apply mul_swap4; gf.
Qed.

(** X6.  Inversion is multiplicative, the zero element included:
    inverse(a * b) = inverse(a) * inverse(b). *)
Theorem inverse_of_product (a b : GF2mElement) :
  wf a -> wf b ->
  agree (do ab <- operator_star a b; inverse ab)
        (do ia <- inverse a; do ib <- inverse b; operator_star ia ib).
Proof.
  intros Ha Hb. exists (inv (mul a b)). split.
  - eapply runs_bind; [apply operator_star_runs | apply inverse_runs].
  - rewrite (inv_npow (mul a b)), npow_mul, <- !inv_npow by gf.
    eapply runs_bind; [apply inverse_runs |].
    eapply runs_bind; [apply inverse_runs | apply operator_star_runs].
Qed.

Lemma inverse_of_product_witness :
  wf a_main /\ wf b_main /\
  agree (do ab <- operator_star a_main b_main; inverse ab)
        (do ia <- inverse a_main; do ib <- inverse b_main; operator_star ia ib).
Proof.
  exact (conj (wf_of_string _) (conj (wf_of_string _)
           (inverse_of_product a_main b_main (wf_of_string _) (wf_of_string _)))).
Defined.

(** ** Squaring *)

Lemma iter_sq k a : Nat.iter k squareONB a = sq_iter k a.
Proof.
  induction k as [| k IH]; [now rewrite sq_iter_0 |].
  now rewrite Nat.iter_succ, IH, sq_iter_S.
Qed.

(** X7.  [squareONB] is a ring homomorphism, and 233 squarings in a row
    give the element back. *)
Theorem square_homomorphism (a b : GF2mElement) :
  wf a -> wf b ->
  squareONB (operator_plus a b) = operator_plus (squareONB a) (squareONB b)
  /\ agree (do ab <- operator_star a b; ret (squareONB ab))
           (operator_star (squareONB a) (squareONB b))
  /\ Nat.iter 233 squareONB a = a.
Proof.
  intros Ha Hb. split; [now apply sq_plus | split].
  - exists (squareONB (mul a b)). split.
    + eapply runs_bind; [apply operator_star_runs | apply runs_ret].
    + rewrite (sq_mul a b Ha Hb). apply operator_star_runs.
  - rewrite iter_sq, <- m_val. now apply sq_iter_m.
Qed.

Lemma square_homomorphism_witness :
  wf a_main /\ wf b_main /\
  (squareONB (operator_plus a_main b_main)
   = operator_plus (squareONB a_main) (squareONB b_main)
   /\ agree (do ab <- operator_star a_main b_main; ret (squareONB ab))
            (operator_star (squareONB a_main) (squareONB b_main))
   /\ Nat.iter 233 squareONB a_main = a_main).
Proof.
  exact (conj (wf_of_string _) (conj (wf_of_string _)
           (square_homomorphism a_main b_main (wf_of_string _) (wf_of_string _)))).
Defined.

(** ** Exponentiation *)

(** The number written by a bit string, most significant bit first; a
    character other than '1' counts as 0. *)
Definition bin_step (n : N) (c : ascii) : N :=
  (2 * n + (if is_one c then 1 else 0))%N.

Definition bin_value (bits : list ascii) : N := fold_left bin_step bits 0%N.

Lemma npow_one a : wf a -> npow a 1 = a.
Proof.
  intros Ha. change 1%N with (N.succ 0). rewrite npow_succ, npow_0.
  now apply mul_identity_l.
Qed.

Lemma pow_loop_npow a bits : wf a -> forall n,
  pow_loop a bits (npow a n) = npow a (fold_left bin_step bits n).
Proof.
  intros Ha. induction bits as [| bit bits IH]; intros n; cbn [pow_loop fold_left].
  - reflexivity.
  - unfold bin_step at 2. unfold is_one.
    rewrite (sq_npow a n Ha).
    destruct (Ascii.eqb bit "1").
    + rewrite <- npow_succ. rewrite <- IH. f_equal. f_equal. lia.
    + rewrite <- IH. f_equal. f_equal. lia.
Qed.

Lemma pow_npow a bits : wf a -> pow a bits = npow a (bin_value bits).
Proof.
  intros Ha. unfold pow, bin_value.
  destruct bits as [| first rest]; [reflexivity |].
  cbn [fold_left]. unfold bin_step at 2. unfold is_one.
  destruct (Ascii.eqb first "1").
  - rewrite mul_identity_l by assumption.
    rewrite <- (npow_one a Ha) at 2. now apply pow_loop_npow.
  - rewrite <- npow_0 at 1. now rewrite pow_loop_npow.
Qed.

(** X8.  [power] is exponentiation: for a bit string read as a binary
    number n (most significant bit first, any character other than '1'
    read as 0), it returns a multiplied n times onto the identity; the
    empty string gives the identity. *)
Theorem power_is_exponentiation (a : GF2mElement) (exponent : list ascii) :
  wf a ->
  runs (power a exponent)
       (N.iter (bin_value exponent) (fun x => mul x a) identity)
  /\ runs (power a []) identity.
Proof.
  intros Ha. split.
  - change (N.iter (bin_value exponent) (fun x => mul x a) identity)
      with (npow a (bin_value exponent)).
    rewrite <- (pow_npow a exponent Ha). apply power_runs.
  - apply (power_runs a []).
Qed.

Lemma power_is_exponentiation_witness :
  wf a_main /\
  (runs (power a_main b_text)
        (N.iter (bin_value b_text) (fun x => mul x a_main) identity)
   /\ runs (power a_main []) identity).
Proof.
  exact (conj (wf_of_string _)
           (power_is_exponentiation a_main b_text (wf_of_string _))).
Defined.

Lemma npow_order a : wf a -> npow a (2 ^ 233) = a.
Proof.
  intros Ha.
  change (2 ^ 233)%N with (N.succ (2 ^ N.of_nat 233 - 1)).
  rewrite npow_succ, <- chain_npow by assumption.
  rewrite (chain_mul a Ha 233), <- m_val. now apply sq_iter_m.
Qed.

Lemma npow_unit a : wf a -> a <> zero -> npow a (2 ^ 233 - 1) = identity.
Proof.
  intros Ha Hnz.
  change (2 ^ 233 - 1)%N with (N.succ (2 ^ 233 - 2)).
  rewrite npow_succ, <- inv_npow by assumption.
  rewrite (mul_comm (inv a) a) by gf. now apply mul_inv.
Qed.

Lemma bin_value_order : bin_value ("1"%char :: repeat "0"%char 233) = (2 ^ 233)%N.
Proof. vm_compute. reflexivity. Qed.

Lemma bin_value_unit : bin_value (repeat "1"%char 233) = (2 ^ 233 - 1)%N.
Proof. vm_compute. reflexivity. Qed.

Lemma bin_value_inverse :
  bin_value (repeat "1"%char 232 ++ ["0"%char]) = (2 ^ 233 - 2)%N.
Proof. vm_compute. reflexivity. Qed.

(** X9.  The multiplicative order divides 2^233 - 1: [power] with the
    exponent "1" followed by 233 zeros (2^233) returns a itself, and for
    a nonzero a [power] with 233 ones (2^233 - 1) returns the identity. *)
Theorem power_order (a : GF2mElement) :
  wf a ->
  runs (power a ("1"%char :: repeat "0"%char 233)) a
  /\ (a <> zero -> runs (power a (repeat "1"%char 233)) identity).
Proof.
  intros Ha. split.
  - rewrite <- (npow_order a Ha) at 2. rewrite <- bin_value_order.
    rewrite <- (pow_npow a _ Ha). apply power_runs.
  - intros Hnz. rewrite <- (npow_unit a Ha Hnz). rewrite <- bin_value_unit.
    rewrite <- (pow_npow a _ Ha). apply power_runs.
Qed.

Lemma power_order_witness :
  wf a_main /\
  (runs (power a_main ("1"%char :: repeat "0"%char 233)) a_main
   /\ (a_main <> zero -> runs (power a_main (repeat "1"%char 233)) identity)).
Proof.
  exact (conj (wf_of_string _) (power_order a_main (wf_of_string _))).
Defined.

(** X10.  [inverse] agrees with [power] at the exponent 2^233 - 2,
    written as 232 ones followed by a zero. *)
Theorem inverse_is_power (a : GF2mElement) :
  wf a ->
  agree (inverse a) (power a (repeat "1"%char 232 ++ ["0"%char])).
Proof.
  intros Ha. exists (inv a). split; [apply inverse_runs |].
  rewrite (inv_npow a Ha), <- bin_value_inverse, <- (pow_npow a _ Ha).
  apply power_runs.
Qed.

Lemma inverse_is_power_witness :
  wf a_main /\
  agree (inverse a_main) (power a_main (repeat "1"%char 232 ++ ["0"%char])).
Proof.
  exact (conj (wf_of_string _) (inverse_is_power a_main (wf_of_string _))).
Defined.

(** ** Cancellation *)

Lemma runs_unique {A} (x : St A) v w : runs x v -> runs x w -> v = w.
Proof.
  intros Hv Hw.
  rewrite <- (runs_fst x v ∅ Hv cache_ok_empty).
  apply (runs_fst x w ∅ Hw cache_ok_empty).
Qed.

Lemma plus_eq_zero a b : wf a -> wf b -> operator_plus a b = zero -> a = b.
Proof.
  intros Ha Hb H. rewrite <- (plus_zero_r a Ha), <- (plus_self b).
  rewrite <- (plus_assoc a b b), H. now apply plus_zero_l.
Qed.

(** X11.  Cancellation: for a nonzero a, a * x = a * y only if x = y. *)
Theorem star_cancel (a x y : GF2mElement) :
  wf a -> wf x -> wf y -> a <> zero ->
  agree (operator_star a x) (operator_star a y) -> x = y.
Proof.
  intros Ha Hx Hy Hnz (v & Hvx & Hvy).
  pose proof (runs_unique _ _ _ Hvx (operator_star_runs a x)) as Ex.
  pose proof (runs_unique _ _ _ Hvy (operator_star_runs a y)) as Ey.
  apply plus_eq_zero; try assumption.
  destruct (mul_cancel_zero a (operator_plus x y) Ha (wf_operator_plus x y)) as [E | E].
  - rewrite (mul_plus_r x y a Hx Hy Ha), <- Ex, <- Ey. apply plus_self.
  - contradiction.
  - exact E.
Qed.

Lemma star_cancel_witness :
  wf a_main /\ wf b_main /\ wf b_main /\ a_main <> zero /\
  agree (operator_star a_main b_main) (operator_star a_main b_main) /\
  b_main = b_main.
Proof.
  assert (H : agree (operator_star a_main b_main) (operator_star a_main b_main))
    by (exists (mul a_main b_main); split; apply operator_star_runs).
  exact (conj (wf_of_string _) (conj (wf_of_string _) (conj (wf_of_string _)
           (conj a_main_nonzero (conj H
              (star_cancel a_main b_main b_main (wf_of_string _) (wf_of_string _)
                 (wf_of_string _) a_main_nonzero H)))))).
Defined.

(** ** Addition and trace *)

(** X12.  [operator+] makes the elements a commutative group in which
    every element is its own opposite: it is commutative and associative,
    zero is neutral, and a + b is zero exactly when a = b. *)
Theorem plus_group (a b c : GF2mElement) :
  wf a -> wf b -> wf c ->
  operator_plus a b = operator_plus b a
  /\ operator_plus (operator_plus a b) c = operator_plus a (operator_plus b c)
  /\ operator_plus a zero = a
  /\ (operator_plus a b = zero <-> a = b).
Proof.
  intros Ha Hb Hc. split; [apply plus_comm | split; [apply plus_assoc | split]].
  - now apply plus_zero_r.
  - split; [now apply plus_eq_zero | intros ->; apply plus_self].
Qed.

Lemma plus_group_witness :
  wf a_main /\ wf b_main /\ wf e_first /\
  (operator_plus a_main b_main = operator_plus b_main a_main
   /\ operator_plus (operator_plus a_main b_main) e_first
      = operator_plus a_main (operator_plus b_main e_first)
   /\ operator_plus a_main zero = a_main
   /\ (operator_plus a_main b_main = zero <-> a_main = b_main)).
Proof.
  exact (conj (wf_of_string _) (conj (wf_of_string _) (conj (wf_of_string _)
           (plus_group a_main b_main e_first
              (wf_of_string _) (wf_of_string _) (wf_of_string _))))).
Defined.

Lemma fold_xorb l : forall r,
  fold_left (fun trace_value coeff => xorb trace_value coeff) l r
  = xorb r (xsum (fun c => c) l).
Proof.
  induction l as [| x l IH]; intros r; cbn [fold_left].
  - change (xsum _ []) with false. now rewrite xorb_false_r.
  - rewrite IH, xsum_cons. now rewrite xorb_assoc.
Qed.

Lemma trace_xsum a : wf a -> trace a = xsum (coef a) (seq 0 m).
Proof.
  intros Ha. unfold trace. rewrite fold_xorb, xorb_false_l.
  apply wf_length in Ha. rewrite <- Ha.
  rewrite <- (map_id (coefficients a)) at 1.
  rewrite <- (map_nth_all (fun c => c) (coefficients a) false), xsum_map.
  apply xsum_ext_in. intros n _. symmetry. apply coef_nth.
Qed.

Lemma xsum_rotate (f : nat -> bool) k :
  xsum (fun n => f ((n + 1) mod (S k))) (seq 0 (S k)) = xsum f (seq 0 (S k)).
Proof.
  transitivity (xorb (xsum (fun n => f (S n)) (seq 0 k)) (f 0)).
  - rewrite seq_S, xsum_app. cbn [Nat.add].
    rewrite xsum_cons. change (xsum (fun n => f ((n + 1) mod S k)) []) with false.
    rewrite xorb_false_r.
    replace (k + 1) with (S k) by lia. rewrite Nat.Div0.mod_same.
    f_equal. apply xsum_ext_in. intros n Hn. apply in_seq in Hn.
    rewrite Nat.mod_small by lia. f_equal. lia.
  - cbn [seq]. rewrite xsum_cons, <- seq_shift, xsum_map. apply xorb_comm.
Qed.

Lemma trace_plus a b : wf a -> wf b ->
  trace (operator_plus a b) = xorb (trace a) (trace b).
Proof.
  intros Ha Hb. rewrite !trace_xsum by gf.
  rewrite <- xsum_xorb. apply xsum_ext_in. intros n Hn.
  apply in_seq in Hn. apply coef_plus. lia.
Qed.

Lemma trace_sq a : wf a -> trace (squareONB a) = trace a.
Proof.
  intros Ha. rewrite !trace_xsum by gf.
  rewrite (xsum_ext_in _ (fun n => coef a ((n + 1) mod m))).
  - rewrite m_val. apply (xsum_rotate (coef a) 232).
  - intros n Hn. apply in_seq in Hn. apply coef_squareONB; [assumption | lia].
Qed.

(** X13.  [trace] is additive and invariant under squaring:
    trace(a + b) = trace(a) xor trace(b) and trace(squareONB(a)) = trace(a). *)
Theorem trace_linear (a b : GF2mElement) :
  wf a -> wf b ->
  trace (operator_plus a b) = xorb (trace a) (trace b)
  /\ trace (squareONB a) = trace a.
Proof.
  intros Ha Hb. split; [now apply trace_plus | now apply trace_sq].
Qed.

Lemma trace_linear_witness :
  wf a_main /\ wf b_main /\
  (trace (operator_plus a_main b_main) = xorb (trace a_main) (trace b_main)
   /\ trace (squareONB a_main) = trace a_main).
Proof.
  exact (conj (wf_of_string _) (conj (wf_of_string _)
           (trace_linear a_main b_main (wf_of_string _) (wf_of_string _)))).
Defined.

(** ** Cyclic shifts *)

Lemma mod_plus_m a : (a + m) mod m = a mod m.
Proof. replace (a + m) with (a + 1 * m) by lia. apply Nat.Div0.mod_add. Qed.

Lemma shift_shift a j k : wf a ->
  cyclicLeftShift (cyclicLeftShift a j) k = cyclicLeftShift a (j + k).
Proof.
  intros Ha. pose proof m_pos as Hm.
  pose proof (Nat.mod_upper_bound j m ltac:(lia)) as Hj.
  pose proof (Nat.mod_upper_bound k m ltac:(lia)) as Hk.
  apply wf_ext; [gf | gf |]. intros n Hn.
  rewrite (coef_cyclicLeftShift (cyclicLeftShift a j) k n) by gf.
  rewrite (coef_cyclicLeftShift a j) by (try assumption; apply index_lt).
  rewrite (coef_cyclicLeftShift a (j + k) n) by assumption.
  f_equal. rewrite mod_shift by lia.
  rewrite (Nat.Div0.add_mod j k), (mod_once m (j mod m + k mod m)) by lia.
  destruct (Nat.ltb_spec (j mod m + k mod m) m).
  - replace (n + (m - k mod m) + (m - j mod m))
      with (n + (m - (j mod m + k mod m)) + m) by lia.
    apply mod_plus_m.
  - f_equal. lia.
Qed.

Lemma shift_0 a : wf a -> cyclicLeftShift a 0 = a.
Proof.
  intros Ha. apply wf_ext; [gf | assumption |]. intros n Hn.
  rewrite coef_cyclicLeftShift by assumption.
  rewrite Nat.Div0.mod_0_l, Nat.sub_0_r, mod_plus_m, Nat.mod_small by assumption.
  reflexivity.
Qed.

Lemma shift_mod a k : wf a -> cyclicLeftShift a (k mod m) = cyclicLeftShift a k.
Proof.
  intros Ha. apply wf_ext; [gf | gf |]. intros n Hn.
  rewrite !coef_cyclicLeftShift by assumption.
  now rewrite Nat.Div0.mod_mod.
Qed.




(** ** The power cache *)


(** X16.  [mod_pow_2 e 467] returns the residue of 2^e modulo 467 from
    any consistent cache, and that residue is never 0. *)
Theorem mod_pow_2_value (e : nat) :
  runs (mod_pow_2 e p) (2 ^ Z.of_nat e mod 467)%Z
  /\ (0 < 2 ^ Z.of_nat e mod 467 < 467)%Z.
Proof.
  change 467%Z with p. rewrite <- pow2_spec.
  split; [apply mod_pow_2_runs | apply pow2_range].
Qed.

(** ** The matrix as a set of positions *)

Lemma length_filter_map {A B} (f : A -> B) (P : B -> bool) l :
  length (List.filter (fun x => P (f x)) l) = length (List.filter P (map f l)).
Proof.
  induction l as [| x l IH]; [reflexivity |].
  cbn [map List.filter]. destruct (P (f x)); cbn [length]; now rewrite IH.
Qed.

(** No power of two has more than two partners among the powers. *)
Lemma partners_le_2 :
  forallb (fun u => length (List.filter (entry_fast u) pow_table) <=? 2) pow_table
  = true.
Proof. vm_compute. reflexivity. Qed.

Lemma matches_le_2 i : i < m -> length (matches i (seq 0 m)) <= 2.
Proof.
  intros Hi. unfold matches.
  rewrite (filter_ext _ (fun j => entry_fast (pow2 i) (pow2 j)))
    by (intros j; apply entry_of_fast; apply pow2_range).
  rewrite (length_filter_map pow2 (entry_fast (pow2 i))).
  rewrite map_pow2_seq. change (pow2 0) with 1%Z. rewrite pow_table_eq.
  pose proof partners_le_2 as H. rewrite forallb_forall in H.
  apply Nat.leb_le. apply H.
  rewrite <- (nth_pow_table i Hi). apply nth_In.
  change (length pow_table) with 233. rewrite <- m_val. exact Hi.
Qed.

(** The early [break] drops nothing: a position is in the matrix exactly
    when it lies in the square and its entry is 1. *)
Lemma in_matrix i j :
  In (i, j) matrix <-> i < m /\ j < m /\ matrix_entry i j = 1%Z.
Proof.
  rewrite matrix_by_rows, in_flat_map. split.
  - intros (i' & Hi' & Hin). apply List.in_map_iff in Hin.
    destruct Hin as (j' & [= <- <-] & Hj'). apply in_seq in Hi'.
    rewrite firstn_all2 in Hj' by (apply matches_le_2; lia).
    unfold matches in Hj'. apply filter_In in Hj'. destruct Hj' as [Hj' E].
    apply in_seq in Hj'. apply Z.eqb_eq in E.
    split; [lia | split; [lia | exact E]].
  - intros (Hi & Hj & E). exists i. split; [apply in_seq; lia |].
    apply List.in_map_iff. exists j. split; [reflexivity |].
    rewrite firstn_all2 by (now apply matches_le_2).
    unfold matches. apply filter_In. split; [apply in_seq; lia |].
    now apply Z.eqb_eq.
Qed.

Lemma entry_fast_sym u v : entry_fast u v = entry_fast v u.
Proof.
  unfold entry_fast. rewrite (Z.add_comm v u).
  destruct (u + v =? 468)%Z, (u - v =? 1)%Z, (v - u =? 1)%Z, (u + v =? 466)%Z;
    reflexivity.
Qed.

Lemma matrix_entry_sym i j : matrix_entry i j = matrix_entry j i.
Proof.
  unfold matrix_entry.
  rewrite (entry_of_value (pow2 i)), (entry_of_value (pow2 j)).
  rewrite !entry_of_fast by apply pow2_range.
  now rewrite entry_fast_sym.
Qed.

(** X17.  The list returned by [createMultiplicativeMatrix] is the whole
    0/1 matrix: (i, j) is listed exactly when i, j < 233 and
    [compute_matrix_element i j] returns 1, so stopping each row at its
    second match loses nothing; and the matrix is symmetric. *)
Theorem matrix_is_complete_and_symmetric (c : gmap nat Z) (i j : nat) :
  cache_ok c ->
  (In (i, j) (fst (createMultiplicativeMatrix c))
   <-> i < m /\ j < m /\ fst (compute_matrix_element i j c) = 1%Z)
  /\ (In (i, j) (fst (createMultiplicativeMatrix c))
      <-> In (j, i) (fst (createMultiplicativeMatrix c))).
Proof.
  intros Hc.
  rewrite (runs_fst _ _ c createMultiplicativeMatrix_runs Hc).
  rewrite (runs_fst _ _ c (compute_matrix_element_runs i j) Hc).
  split; [apply in_matrix |].
  split; intros H.
  - destruct (proj1 (in_matrix i j) H) as (Hi & Hj & E).
    apply (proj2 (in_matrix j i)). rewrite (matrix_entry_sym j i).
    exact (conj Hj (conj Hi E)).
  - destruct (proj1 (in_matrix j i) H) as (Hj & Hi & E).
    apply (proj2 (in_matrix i j)). rewrite (matrix_entry_sym i j).
    exact (conj Hi (conj Hj E)).
Qed.

Lemma matrix_is_complete_and_symmetric_witness :
  cache_ok ∅ /\
  ((In (0, 1) (fst (createMultiplicativeMatrix ∅))
    <-> 0 < m /\ 1 < m /\ fst (compute_matrix_element 0 1 ∅) = 1%Z)
   /\ (In (0, 1) (fst (createMultiplicativeMatrix ∅))
       <-> In (1, 0) (fst (createMultiplicativeMatrix ∅)))).
Proof.
  exact (conj cache_ok_empty
           (matrix_is_complete_and_symmetric ∅ 0 1 cache_ok_empty)).
Defined.

(** ** Text in, text out *)

Lemma map_is_one_bit_char (l : list bool) : map is_one (map bit_char l) = l.
Proof.
  rewrite map_map, (map_ext _ (fun b => b)) by apply bit_char_is_one_eq.
  apply map_id.
Qed.

(** X18.  Reading back what [operator<<] printed gives the element
    itself: the string constructor undoes the serializer. *)
Theorem deserialize_serialize (a : GF2mElement) :
  wf a -> GF2mElement_of_string (operator_out a) = a.
Proof.
  intros Ha. apply element_eq.
  rewrite coefficients_of_string, (operator_out_rev a Ha).
  rewrite <- map_rev, rev_involutive, map_is_one_bit_char.
  apply resize_all_alt. apply wf_length in Ha. congruence.
Qed.

Lemma deserialize_serialize_witness :
  wf a_main /\ GF2mElement_of_string (operator_out a_main) = a_main.
Proof.
  exact (conj (wf_of_string _) (deserialize_serialize a_main (wf_of_string _))).
Defined.

Lemma nth_all_false (pad : list bool) n :
  Forall (fun b => b = false) pad -> nth n pad false = false.
Proof.
  intros H. destruct (nth_in_or_default n pad false) as [Hin | E]; [| exact E].
  rewrite List.Forall_forall in H. now apply H.
Qed.

Lemma resize_pad (l pad : list bool) :
  Forall (fun b => b = false) pad ->
  resize m false (l ++ pad) = resize m false l.
Proof.
  intros Hpad. apply (nth_ext _ _ false false).
  - now rewrite !length_resize.
  - intros n Hn. rewrite length_resize in Hn.
    rewrite !nth_resize by assumption.
    destruct (Nat.lt_ge_cases n (length l)) as [H | H].
    + now apply app_nth1.
    + rewrite app_nth2 by assumption.
      rewrite nth_all_false by assumption.
      symmetry. now apply nth_overflow.
Qed.

(** X19.  Leading '0' characters do not change the element built from a
    text, however many there are and however long the text is. *)
Theorem leading_zeros_ignored (s : list ascii) (k : nat) :
  GF2mElement_of_string (repeat "0"%char k ++ s) = GF2mElement_of_string s.
Proof.
  apply element_eq. rewrite !coefficients_of_string.
  rewrite map_app, rev_app_distr. apply resize_pad.
  apply List.Forall_forall. intros b Hb.
  apply in_rev in Hb.
  destruct (proj1 (List.in_map_iff _ _ _) Hb) as (c & <- & Hc).
  apply repeat_spec in Hc. now subst c.
Qed.

(** ** The rounds of [multiplyAndShift] *)

Lemma shifted_shift k : forall a, wf a -> shifted k a = cyclicLeftShift a k.
Proof.
  induction k as [| k IH]; intros a Ha; cbn [shifted].
  - symmetry. now apply shift_0.
  - rewrite IH by gf. now rewrite shift_shift.
Qed.

Lemma shifted_mod k a : wf a -> shifted k a = shifted (k mod m) a.
Proof.
  intros Ha. rewrite !shifted_shift by assumption.
  symmetry. now apply shift_mod.
Qed.

(** Round [k] computes coefficient [m - 1 - k] of the product, and the
    rounds repeat with period [m]. *)
Lemma round_coef M a b k : in_range M -> wf a -> wf b ->
  round_bit M (shifted k a) (shifted k b) = coef (mul_with M a b) (m - 1 - k mod m).
Proof.
  intros HM Ha Hb. pose proof m_pos as Hm.
  pose proof (Nat.mod_upper_bound k m ltac:(lia)) as Hk.
  rewrite (shifted_mod k a Ha), (shifted_mod k b Hb).
  rewrite coef_mul_with by (try assumption; lia).
  rewrite round_bit_xsum by now apply in_range_rows.
  apply xsum_ext_in. intros [i j] Hin. unfold term. cbn [fst snd].
  unfold in_range in HM. rewrite List.Forall_forall in HM.
  destruct (HM _ Hin) as [Hi Hj]. cbn [fst snd] in Hi, Hj.
  rewrite !coef_shifted by (try assumption; lia).
  f_equal; f_equal; f_equal; lia.
Qed.

Lemma shift_rounds_product a b steps : wf a -> wf b ->
  shift_rounds matrix steps a b []
  = map (fun k => bit_char (coef (mul a b) (232 - k mod 233))) (seq 0 steps).
Proof.
  intros Ha Hb. rewrite shift_rounds_map. cbn [app].
  apply map_ext. intros k. f_equal.
  rewrite (round_coef matrix a b k matrix_in_range Ha Hb).
  rewrite <- mul_unfold, m_val. reflexivity.
Qed.

(** X20.  [multiplyAndShift] emits the coefficients of the product from
    the most significant one downward, one per step, and starts over
    after 233 steps: for any number of steps, character [k] of its output
    is coefficient [232 - k mod 233] of [operator*]'s result.  The output
    has as many characters as steps, all of them '0' or '1'. *)
Theorem multiplyAndShift_emits_product (a b : GF2mElement) (steps : nat) :
  wf a -> wf b ->
  exists product : GF2mElement,
    runs (operator_star a b) product
    /\ runs (multiplyAndShift a b steps)
         (map (fun k => if coef product (232 - k mod 233) then "1"%char else "0"%char)
              (seq 0 steps)).
Proof.
  intros Ha Hb. exists (mul a b). split; [apply operator_star_runs |].
  change (fun k => if coef (mul a b) (232 - k mod 233) then "1"%char else "0"%char)
    with (fun k => bit_char (coef (mul a b) (232 - k mod 233))).
  rewrite <- (shift_rounds_product a b steps Ha Hb).
  apply multiplyAndShift_runs.
Qed.

Lemma multiplyAndShift_emits_product_witness :
  wf a_main /\ wf b_main /\
  exists product : GF2mElement,
    runs (operator_star a_main b_main) product
    /\ runs (multiplyAndShift a_main b_main 500)
         (map (fun k => if coef product (232 - k mod 233) then "1"%char else "0"%char)
              (seq 0 500)).
Proof.
  exact (conj (wf_of_string _) (conj (wf_of_string _)
           (multiplyAndShift_emits_product a_main b_main 500
              (wf_of_string _) (wf_of_string _)))).
Defined.

(** ** The parts of one round *)

(** X21.  [multiplyWithMatrix] returns 233 bits, and bit [i] is the XOR,
    over the marked positions (i, j) of row [i], of coefficient
    [232 - j] of the element; a position listed twice cancels. *)
Theorem multiplyWithMatrix_rows (a : GF2mElement) (M : list (nat * nat)) (i : nat) :
  in_range M -> i < m ->
  length (multiplyWithMatrix a M) = 233
  /\ nth i (multiplyWithMatrix a M) false
     = xsum (fun e => coef a (232 - snd e)) (List.filter (fun e => fst e =? i) M).
Proof.
  intros HM Hi. rewrite multiplyWithMatrix_fold. split.
  - rewrite length_mwm, length_replicate. apply m_val.
  - pose proof (mwm_inner a (fun x => x =? i) M (replicate m false)
                  (length_replicate m false) (in_range_rows M HM)) as H.
    cbn beta in H.
    rewrite (xsum_single_m
               (fun x => nth x (fold_left (mwm_step a) M (replicate m false)) false)
               i Hi) in H.
    rewrite (xsum_single_m (fun x => nth x (replicate m false) false) i Hi) in H.
    rewrite nth_replicate_same, xorb_false_l in H.
    rewrite H, <- xsum_filter.
    apply xsum_ext_in. intros e _. rewrite m_val. apply andb_comm.
Qed.

Lemma multiplyWithMatrix_rows_witness :
  in_range matrix /\ 0 < m /\
  (length (multiplyWithMatrix a_main matrix) = 233
   /\ nth 0 (multiplyWithMatrix a_main matrix) false
      = xsum (fun e => coef a_main (232 - snd e))
          (List.filter (fun e => fst e =? 0) matrix)).
Proof.
  exact (conj matrix_in_range (conj m_pos
           (multiplyWithMatrix_rows a_main matrix 0 matrix_in_range m_pos))).
Defined.

Lemma length_transposeToVector a : length (transposeToVector a) = m.
Proof.
  unfold transposeToVector.
  rewrite (length_fold_insert (fun i => i)). apply length_replicate.
Qed.

Lemma transposeToVector_rev a : wf a -> transposeToVector a = rev (coefficients a).
Proof.
  intros Ha. pose proof Ha as Hl. apply wf_length in Hl.
  apply (nth_ext _ _ false false).
  - now rewrite length_transposeToVector, length_rev.
  - intros n Hn. rewrite length_transposeToVector in Hn.
    rewrite nth_transposeToVector.
    destruct (Nat.ltb_spec n m); [| lia].
    rewrite rev_nth, Hl by lia. rewrite coef_nth.
    replace (m - S n) with (m - 1 - n) by lia. reflexivity.
Qed.

(** X22.  [transposeToVector] returns the coefficients in reverse order,
    so transposing twice gives the coefficients back. *)
Theorem transpose_reverses (a : GF2mElement) :
  wf a ->
  transposeToVector a = rev (coefficients a)
  /\ transposeToVector (GF2mElement_of_vector (transposeToVector a)) = coefficients a.
Proof.
  intros Ha. split; [now apply transposeToVector_rev |].
  rewrite (transposeToVector_rev _ (wf_of_vector _)).
  rewrite of_vector_full by apply length_transposeToVector.
  rewrite (transposeToVector_rev a Ha). apply rev_involutive.
Qed.

Lemma transpose_reverses_witness :
  wf a_main /\
  (transposeToVector a_main = rev (coefficients a_main)
   /\ transposeToVector (GF2mElement_of_vector (transposeToVector a_main))
      = coefficients a_main).
Proof.
  exact (conj (wf_of_string _) (transpose_reverses a_main (wf_of_string _))).
Defined.

(** ** The trace form *)

Local Open Scope Z_scope.

(** The residue behind coefficient index [dlog r] is [r] up to sign. *)
Lemma dlog_rep r : 1 <= r < p ->
  nth (Z.to_nat (dlogZ r)) rep_table 0 = r
  \/ nth (Z.to_nat (dlogZ r)) rep_table 0 = p - r.
Proof.
  intros Hr.
  assert (H : forallb (fun r => let w := nth (Z.to_nat (dlogZ r)) rep_table 0 in
                                (w =? r) || (w =? p - r)) residues = true)
    by (vm_compute; reflexivity).
  pose proof (residues_forall _ H r Hr) as E. cbn beta zeta in E.
  apply orb_true_iff in E. destruct E as [E | E]; apply Z.eqb_eq in E; auto.
Qed.

Lemma dlog_eq r s : 1 <= r < p -> 1 <= s < p ->
  dlog r = dlog s <-> (r = s \/ r + s = p).
Proof.
  intros Hr Hs.
  change (dlog r) with (Z.to_nat (dlogZ r)).
  change (dlog s) with (Z.to_nat (dlogZ s)).
  split.
  - intros E.
    pose proof (dlog_rep r Hr) as Hr'. pose proof (dlog_rep s Hs) as Hs'.
    rewrite E in Hr'. lia.
  - intros [-> | E]; [reflexivity |].
    replace s with (p - r) by lia. now rewrite dlogZ_neg.
Qed.

Lemma sum_divisible r s : 1 <= r < p -> 1 <= s < p ->
  (r + s) mod p = 0 <-> r + s = p.
Proof.
  rewrite p_val. intros Hr Hs.
  rewrite (residue_cases (r + s) 0) by lia. lia.
Qed.

Lemma diff_divisible r s : 1 <= r < p -> 1 <= s < p ->
  (r - s) mod p = 0 <-> r = s.
Proof.
  rewrite p_val. intros Hr Hs.
  rewrite (residue_cases (r - s) 0) by lia. lia.
Qed.

Local Open Scope nat_scope.

Lemma trace_zero : trace zero = false.
Proof.
  rewrite trace_xsum by gf.
  rewrite (xsum_ext_in _ (fun _ => false)); [apply xsum_false |].
  intros n _. apply coef_zero.
Qed.

Lemma trace_basis x : x < m -> trace (basis x) = true.
Proof.
  intros Hx. rewrite trace_xsum by gf.
  rewrite (xsum_ext_in _ (fun n => (n =? x) && true)).
  - apply (xsum_single_m (fun _ => true) x Hx).
  - intros n _. rewrite coef_basis by assumption. now rewrite andb_true_r.
Qed.

Lemma trace_gamma s : trace (gamma s) = negb (s mod p =? 0)%Z.
Proof.
  destruct (Z.eqb_spec (s mod p) 0) as [E | E].
  - rewrite gamma_zero by assumption. apply trace_zero.
  - rewrite gamma_basis by assumption. apply trace_basis.
    apply dlog_lt. now apply residue_range.
Qed.

(** The dot product of two coefficient vectors. *)
Definition dot (a b : GF2mElement) : bool :=
  xsum (fun i => coef a i && coef b i) (seq 0 m).

Lemma dot_comm a b : dot a b = dot b a.
Proof. unfold dot. apply xsum_ext_in. intros i _. apply andb_comm. Qed.

Lemma dot_plus_l a a' b :
  dot (operator_plus a a') b = xorb (dot a b) (dot a' b).
Proof.
  unfold dot. rewrite <- xsum_xorb. apply xsum_ext_in. intros n Hn.
  apply in_seq in Hn. rewrite coef_plus by lia.
  now destruct (coef a n), (coef a' n), (coef b n).
Qed.

Lemma dot_plus_r a b b' :
  dot a (operator_plus b b') = xorb (dot a b) (dot a b').
Proof. rewrite dot_comm, dot_plus_l. now rewrite (dot_comm b), (dot_comm b'). Qed.

Lemma dot_zero_l b : dot zero b = false.
Proof.
  unfold dot. rewrite (xsum_ext_in _ (fun _ => false)); [apply xsum_false |].
  intros n _. now rewrite coef_zero.
Qed.

Lemma dot_zero_r a : dot a zero = false.
Proof. rewrite dot_comm. apply dot_zero_l. Qed.

Lemma dot_basis x y : x < m -> y < m -> dot (basis x) (basis y) = (x =? y).
Proof.
  intros Hx Hy. unfold dot.
  rewrite (xsum_ext_in _ (fun n => (n =? x) && (n =? y))).
  - apply (xsum_single_m (fun n => n =? y) x Hx).
  - intros n _. now rewrite !coef_basis by assumption.
Qed.

Lemma basis_dlog r : (1 <= r < p)%Z -> basis (dlog r) = gamma r.
Proof.
  intros Hr. rewrite gamma_basis; rewrite Z.mod_small by lia; [reflexivity | lia].
Qed.

(** The basis is self-dual: the trace of a product of two basis elements
    is 1 exactly when they are the same element. *)
Lemma trace_mul_basis x y : x < m -> y < m ->
  trace (mul (basis x) (basis y)) = (x =? y).
Proof.
  intros Hx Hy.
  destruct (rep_exists x Hx) as (r & Hr & <-).
  destruct (rep_exists y Hy) as (s & Hs & <-).
  rewrite (basis_dlog r Hr), (basis_dlog s Hs).
  rewrite (product_rule_all r s), trace_plus, !trace_gamma by gf.
  pose proof (sum_divisible r s Hr Hs) as H1.
  pose proof (diff_divisible r s Hr Hs) as H2.
  pose proof (dlog_eq r s Hr Hs) as H3.
  assert (Hp : p = 467%Z) by reflexivity.
  destruct (Z.eqb_spec ((r + s) mod p) 0) as [E1 | E1],
           (Z.eqb_spec ((r - s) mod p) 0) as [E2 | E2],
           (Nat.eqb_spec (dlog r) (dlog s)) as [E3 | E3];
    cbn [negb xorb]; try reflexivity; exfalso; lia.
Qed.

Lemma trace_mul_dot a b : wf a -> wf b -> trace (mul a b) = dot a b.
Proof.
  intros Ha Hb. revert a Ha.
  apply (element_ind (fun a => trace (mul a b) = dot a b)).
  - rewrite mul_zero_l by assumption. now rewrite trace_zero, dot_zero_l.
  - intros a x Ha Hx IH.
    rewrite (mul_plus_l a (basis x) b) by gf.
    rewrite trace_plus, dot_plus_l, IH by gf. f_equal.
    clear IH. revert b Hb.
    apply (element_ind (fun b => trace (mul (basis x) b) = dot (basis x) b)).
    + rewrite mul_zero_r by gf. now rewrite trace_zero, dot_zero_r.
    + intros b y Hb Hy IH'.
      rewrite (mul_plus_r b (basis y) (basis x)) by gf.
      rewrite trace_plus, dot_plus_r, IH' by gf. f_equal.
      rewrite trace_mul_basis, dot_basis by assumption. reflexivity.
Qed.

(** X23.  The trace of a product is the dot product of the two
    coefficient vectors, which [multiplyWithTransposed] computes: the
    basis behind the coefficients is self-dual. *)
Theorem trace_of_product (a b : GF2mElement) :
  wf a -> wf b ->
  runs (do ab <- operator_star a b; ret (trace ab))
       (multiplyWithTransposed a (coefficients b)).
Proof.
  intros Ha Hb.
  assert (E : multiplyWithTransposed a (coefficients b) = trace (mul a b)).
  { rewrite multiplyWithTransposed_xsum, (trace_mul_dot a b Ha Hb).
    unfold dot. apply xsum_ext_in. intros i _.
    rewrite <- coef_nth. apply andb_comm. }
  rewrite E.
  eapply runs_bind; [apply operator_star_runs | apply runs_ret].
Qed.

Lemma trace_of_product_witness :
  wf a_main /\ wf b_main /\
  runs (do ab <- operator_star a_main b_main; ret (trace ab))
       (multiplyWithTransposed a_main (coefficients b_main)).
Proof.
  exact (conj (wf_of_string _) (conj (wf_of_string _)
           (trace_of_product a_main b_main (wf_of_string _) (wf_of_string _)))).
Defined.
